(** * gemara-mcp: the fetch / cache / retry pipeline

    A shallow embedding of the Go package [internal/tool/fetcher] (version
    validation, URL building with origin pinning, the retrying
    [http.RoundTripper], the size-bounded HTTP fetcher, the cached fetcher)
    and of the two tool wrappers of [internal/tool/mode.go] that feed it.

    Conventions.
    - A Go [string] is a [string] (a sequence of bytes); [[]byte] is
      [list Byte.byte].
    - Go [int], [int64] and [time.Duration] are [Z]; where the code can
      overflow ([retryAfter]) the wrap-around is written out.
    - A Go [error] is a value of the inductive [error] below, one constructor
      per [fmt.Errorf] site, carrying the arguments of the format;
      [nil] is [None].
    - Calls that leave the process (the clock, [http.DefaultTransport],
      [http.Client.Do]) are oracles of an explicit environment, and what the
      code does to the outside is recorded in an explicit world state. *)

From Stdlib Require Import ZArith Lia List Ascii String Bool.
From stdpp Require Import gmap strings.
Import ListNotations.

Open Scope string_scope.
Open Scope list_scope.
Open Scope Z_scope.

(* ================================================================= *)
(** ** Regular expressions (the fragment of Go's [regexp] the code uses) *)

(** Byte ranges of a character class, as [regexp/syntax] stores them:
    inclusive [(lo, hi)] pairs of code points. *)
Definition charClass := list (N * N).

Definition inRange (c : ascii) (r : N * N) : bool :=
  (fst r <=? N_of_ascii c)%N && (N_of_ascii c <=? snd r)%N.

Definition inClass (cls : charClass) (c : ascii) : bool :=
  existsb (inRange c) cls.

(** The operators of [regexp/syntax] that occur in the patterns of this
    package.  Capture groups do not change what [MatchString] answers and
    are not represented. *)
Inductive regexp : Type :=
| OpNoMatch
| OpEmptyMatch
| OpLiteral (c : ascii)
| OpCharClass (cls : charClass)
| OpConcat (r1 r2 : regexp)
| OpAlternate (r1 r2 : regexp)
| OpStar (r : regexp)
| OpPlus (r : regexp)
| OpQuest (r : regexp).

(** [nullable r]: [r] matches the empty input. *)
Fixpoint nullable (r : regexp) : bool :=
  match r with
  | OpNoMatch => false
  | OpEmptyMatch => true
  | OpLiteral _ => false
  | OpCharClass _ => false
  | OpConcat r1 r2 => nullable r1 && nullable r2
  | OpAlternate r1 r2 => nullable r1 || nullable r2
  | OpStar _ => true
  | OpPlus r => nullable r
  | OpQuest _ => true
  end.

(** [deriv c r]: what is left of [r] after reading the byte [c]. *)
Fixpoint deriv (c : ascii) (r : regexp) : regexp :=
  match r with
  | OpNoMatch => OpNoMatch
  | OpEmptyMatch => OpNoMatch
  | OpLiteral d => if Ascii.eqb c d then OpEmptyMatch else OpNoMatch
  | OpCharClass cls => if inClass cls c then OpEmptyMatch else OpNoMatch
  | OpConcat r1 r2 =>
      if nullable r1
      then OpAlternate (OpConcat (deriv c r1) r2) (deriv c r2)
      else OpConcat (deriv c r1) r2
  | OpAlternate r1 r2 => OpAlternate (deriv c r1) (deriv c r2)
  | OpStar r => OpConcat (deriv c r) (OpStar r)
  | OpPlus r => OpConcat (deriv c r) (OpStar r)
  | OpQuest r => deriv c r
  end.

Fixpoint matchBytes (r : regexp) (s : list ascii) : bool :=
  match s with
  | [] => nullable r
  | c :: s' => matchBytes (deriv c r) s'
  end.

(** [MatchString] for a pattern written [^(r)$] without flags: [^] holds
    only at the start of the text and [$] only at its end, so the text
    as a whole has to match [r]. *)
Definition MatchString (r : regexp) (s : string) : bool :=
  matchBytes r (list_ascii_of_string s).

(** Literal text, as a concatenation of literals. *)
Fixpoint OpLiteralString (s : list ascii) : regexp :=
  match s with
  | [] => OpEmptyMatch
  | c :: s' => OpConcat (OpLiteral c) (OpLiteralString s')
  end.

(** Perl classes of RE2: [\d] is [[0-9]], [\w] is [[0-9A-Za-z_]]. *)
Definition class_d : charClass := [(48, 57)]%N.
Definition class_w : charClass := [(48, 57); (65, 90); (95, 95); (97, 122)]%N.
(** [[\w.]] *)
Definition class_w_dot : charClass := (46, 46)%N :: class_w.

(** The language of a regular expression, as a relation. *)
Inductive lang : regexp -> list ascii -> Prop :=
| L_Empty : lang OpEmptyMatch []
| L_Literal c : lang (OpLiteral c) [c]
| L_Class cls c : inClass cls c = true -> lang (OpCharClass cls) [c]
| L_Concat r1 r2 s1 s2 :
    lang r1 s1 -> lang r2 s2 -> lang (OpConcat r1 r2) (s1 ++ s2)
| L_AltL r1 r2 s : lang r1 s -> lang (OpAlternate r1 r2) s
| L_AltR r1 r2 s : lang r2 s -> lang (OpAlternate r1 r2) s
| L_StarNil r : lang (OpStar r) []
| L_StarCons r s1 s2 :
    lang r s1 -> lang (OpStar r) s2 -> lang (OpStar r) (s1 ++ s2)
| L_Plus r s1 s2 :
    lang r s1 -> lang (OpStar r) s2 -> lang (OpPlus r) (s1 ++ s2)
| L_QuestNone r : lang (OpQuest r) []
| L_QuestSome r s : lang r s -> lang (OpQuest r) s.

(* ================================================================= *)
(** ** Errors *)

(** Go [error] values.  The first four are errors of the standard library
    as this package observes them; [ErrWrap p e] is
    [fmt.Errorf(p + ": %w", e)]. *)
Inductive error : Type :=
| ErrNet (isTimeout : bool) (msg : string)
    (* an error that is a [net.Error]; [isTimeout] is its [Timeout()] *)
| ErrPlain (msg : string)
    (* any other error value, e.g. [io.ErrUnexpectedEOF] *)
| ErrContextCanceled
| ErrContextDeadlineExceeded
| ErrURLParse (raw : string) (msg : string)
    (* [*url.Error] of [url.Parse] *)
| ErrInvalidVersion (version : string)
    (* "invalid version %q: must be semver (e.g., v1.2.3) or %q" *)
| ErrBaseNotHTTPS (scheme : string)
    (* "base URL must use HTTPS, got scheme %q" *)
| ErrBaseNoHost
    (* "base URL must have a host" *)
| ErrUnexpectedOrigin (gotScheme gotHost wantScheme wantHost : string)
    (* "constructed URL has unexpected origin: got %s://%s, want %s://%s" *)
| ErrStatus (method url : string) (code : Z)
    (* "%s %q: response status code %d: %s" *)
| ErrWrap (prefix : string) (cause : error).

(** [errors.As(err, &netErr) && netErr.Timeout()] with [netErr] a
    [net.Error]: the first error of the chain that is a [net.Error]
    decides.  [context.DeadlineExceeded] is a [net.Error] whose
    [Timeout()] is true; [context.Canceled] is not a [net.Error]. *)
Fixpoint asNetTimeout (e : error) : bool :=
  match e with
  | ErrNet t _ => t
  | ErrContextDeadlineExceeded => true
  | ErrWrap _ cause => asNetTimeout cause
  | _ => false
  end.

(* ================================================================= *)
(** ** Version validation (url.go) *)

(** [regexp.MustCompile(`^(v\d+\.\d+\.\d+(-[\w.]+)?|latest)$`)] *)
Definition validVersionPattern : regexp :=
  OpAlternate
    (OpConcat (OpLiteral "v")
      (OpConcat (OpPlus (OpCharClass class_d))
        (OpConcat (OpLiteral ".")
          (OpConcat (OpPlus (OpCharClass class_d))
            (OpConcat (OpLiteral ".")
              (OpConcat (OpPlus (OpCharClass class_d))
                (OpQuest
                  (OpConcat (OpLiteral "-")
                    (OpPlus (OpCharClass class_w_dot))))))))))
    (OpLiteralString (list_ascii_of_string "latest")).

(** [ValidateVersion] checks that a version string matches semver
    (e.g., v1.2.3) or "latest". *)
Definition ValidateVersion (version : string) : option error :=
  if negb (MatchString validVersionPattern version)
  then Some (ErrInvalidVersion version)
  else None.

(* ================================================================= *)
(** ** URL building (url.go) *)

(** A Go [(value, error)] return where exactly one side is set. *)
Inductive result (A : Type) : Type :=
| Ok (a : A)
| Err (e : error).
Arguments Ok {A} a.
Arguments Err {A} e.

(** The part of [net/url] the builder calls: [url.Parse], the fields
    [Scheme] and [Host] of a [*url.URL], and its [String] method.  The
    package is the standard library's, not this repository's, so the
    builder is stated over any implementation of this interface. *)
Class NetURL : Type := {
  URL : Type;
  Scheme : URL -> string;
  Host : URL -> string;
  url_Parse : string -> result URL;
  url_String : URL -> string
}.

Section URLBuilder.
Context `{NetURL}.

(** [URLBuilder] constructs fetch URLs from base components and a
    version string. *)
Record URLBuilder : Type := {
  base : URL;
  suffix : string
}.

(** [NewURLBuilder] creates a [URLBuilder] from base URL and path suffix. *)
Definition NewURLBuilder (baseURL suffix : string) : result URLBuilder :=
  match url_Parse baseURL with
  | Err err => Err (ErrWrap "invalid base URL" err)
  | Ok u =>
      if negb (String.eqb (Scheme u) "https") then Err (ErrBaseNotHTTPS (Scheme u))
      else if String.eqb (Host u) "" then Err ErrBaseNoHost
      else Ok {| base := u; suffix := suffix |}
  end.

(** The string [Build] hands to [url.Parse]. *)
Definition rawURL (b : URLBuilder) (version : string) : string :=
  url_String (base b) +:+ version +:+ suffix b.

(** [Build] constructs a full URL by inserting the validated version
    between the trusted base and the suffix. *)
Definition Build (b : URLBuilder) (version : string) : result string :=
  match ValidateVersion version with
  | Some err => Err err
  | None =>
      let raw := rawURL b version in
      match url_Parse raw with
      | Err err => Err (ErrWrap "constructed invalid URL" err)
      | Ok parsed =>
          if negb (String.eqb (Scheme parsed) (Scheme (base b)))
             || negb (String.eqb (Host parsed) (Host (base b)))
          then Err (ErrUnexpectedOrigin (Scheme parsed) (Host parsed)
                      (Scheme (base b)) (Host (base b)))
          else Ok (url_String parsed)
      end
  end.

(* ----------------------------------------------------------------- *)
(** *** The HTTP fetcher's constructor (fetcher.go) *)

(** [HTTPFetcher] fetches data from an HTTP URL.  [MaxResponseBytes]
    limits the number of response body bytes read; if zero or negative,
    [defaultMaxResponseBytes] is used. *)
Record HTTPFetcher : Type := {
  fetchURL : string;
  MaxResponseBytes : Z
}.

(** [NewHTTPFetcher] creates an HTTP fetcher by building a URL from the
    trusted [URLBuilder] and the given version.  The composite literal
    leaves [MaxResponseBytes] at its zero value. *)
Definition NewHTTPFetcher (builder : URLBuilder) (version : string)
  : result HTTPFetcher :=
  match Build builder version with
  | Err err => Err (ErrWrap "building fetch URL" err)
  | Ok u => Ok {| fetchURL := u; MaxResponseBytes := 0 |}
  end.

(** [URL()] returns the resolved fetch URL. *)
Definition HTTPFetcher_URL (f : HTTPFetcher) : string := fetchURL f.

End URLBuilder.

(* ----------------------------------------------------------------- *)
(** *** A small instance of the URL interface

    Used to run the builder on concrete inputs.  It follows
    [net/url]'s [getScheme], [parse] and [String] on URLs whose bytes are
    letters, digits and [-._~/:@] and that are either absolute,
    [scheme://host/path] with a bare host name, or a path without a
    scheme; on every other input it reports an error (where [net/url]
    may answer). *)

Definition isLetter (c : ascii) : bool :=
  let n := N_of_ascii c in
  ((65 <=? n) && (n <=? 90) || (97 <=? n) && (n <=? 122))%N.

Definition isDigitByte (c : ascii) : bool :=
  let n := N_of_ascii c in ((48 <=? n) && (n <=? 57))%N.

Definition toLowerByte (c : ascii) : ascii :=
  let n := N_of_ascii c in
  if ((65 <=? n) && (n <=? 90))%N then ascii_of_N (n + 32) else c.

Definition refSafeByte (c : ascii) : bool :=
  isLetter c || isDigitByte c
  || existsb (Ascii.eqb c) (list_ascii_of_string "-._~/:@").

(** [getScheme]: [(scheme, rest)] of a raw URL; [seen] holds the bytes
    read so far, last first. *)
Fixpoint getScheme (seen rest : list ascii) : result (list ascii * list ascii) :=
  match rest with
  | [] => Ok ([], rev seen)
  | c :: rest' =>
      if isLetter c then getScheme (c :: seen) rest'
      else if isDigitByte c || existsb (Ascii.eqb c) (list_ascii_of_string "+-.")
      then match seen with
           | [] => Ok ([], rev seen ++ rest)
           | _ => getScheme (c :: seen) rest'
           end
      else if Ascii.eqb c ":"
      then match seen with
           | [] => Err (ErrPlain "missing protocol scheme")
           | _ => Ok (rev seen, rest')
           end
      else Ok ([], rev seen ++ rest)
  end.

(** [strings.Cut(s, "/")] keeping the separator with the second part. *)
Fixpoint splitAtSlash (s : list ascii) : list ascii * list ascii :=
  match s with
  | [] => ([], [])
  | c :: s' =>
      if Ascii.eqb c "/" then ([], s)
      else let '(a, b) := splitAtSlash s' in (c :: a, b)
  end.

Record refURLValue : Type := {
  refScheme : string;
  refHost : string;
  refPath : string
}.

Definition refParse (raw : string) : result refURLValue :=
  let bytes := list_ascii_of_string raw in
  let unsupported : result refURLValue :=
    Err (ErrURLParse raw "outside the fragment of the reference parser") in
  if negb (forallb refSafeByte bytes) then unsupported
  else
    match getScheme [] bytes with
    | Err e => Err (ErrURLParse raw "missing protocol scheme")
    | Ok ([], rest) =>
        match rest with
        | "/"%char :: "/"%char :: _ => unsupported
        | "/"%char :: _ =>
            Ok {| refScheme := ""; refHost := "";
                  refPath := string_of_list_ascii rest |}
        | _ =>
            if existsb (Ascii.eqb ":") (fst (splitAtSlash rest))
            then Err (ErrURLParse raw
                        "first path segment in URL cannot contain colon")
            else Ok {| refScheme := ""; refHost := "";
                       refPath := string_of_list_ascii rest |}
        end
    | Ok (scheme, "/"%char :: "/"%char :: rest) =>
        let '(authority, path) := splitAtSlash rest in
        if existsb (fun c => Ascii.eqb c ":" || Ascii.eqb c "@") authority
        then unsupported
        else Ok {| refScheme := string_of_list_ascii (map toLowerByte scheme);
                   refHost := string_of_list_ascii authority;
                   refPath := string_of_list_ascii path |}
    | Ok (_, _) => unsupported
    end.

Definition refString (u : refURLValue) : string :=
  (if String.eqb (refScheme u) "" then "" else refScheme u +:+ ":")
  +:+ (if negb (String.eqb (refScheme u) "") || negb (String.eqb (refHost u) "")
       then (if negb (String.eqb (refHost u) "") || negb (String.eqb (refPath u) "")
             then "//" else "") +:+ refHost u
       else "")
  +:+ refPath u.

Definition refURL : NetURL := {|
  URL := refURLValue;
  Scheme := refScheme;
  Host := refHost;
  url_Parse := refParse;
  url_String := refString
|}.

(** Builders over the reference instance: the round-trip example of the
    specification, and a base without a path, whose host the version
    would extend. *)
Definition exampleBuilder : @URLBuilder refURL :=
  @Build_URLBuilder refURL
    {| refScheme := "https"; refHost := "example.com"; refPath := "/a/" |}
    "/b.yaml".

Definition bareHostBuilder : @URLBuilder refURL :=
  @Build_URLBuilder refURL
    {| refScheme := "https"; refHost := "example.com"; refPath := "" |}
    "".

(* ================================================================= *)
(** ** The retrying transport (http.go) *)

(** The body of a response as a reader sees it: the bytes it yields,
    then end of file ([None]) or a read error.  An [io.Reader] may report
    its end from the [Read] that yields its last byte or from the [Read]
    after it; [endWithData] tells which this reader does. *)
Record bodyReader : Type := {
  bodyData : list Byte.byte;
  bodyErr : option error;
  endWithData : bool
}.

(** The fields of [http.Response] the package reads.  [RequestURL] stands
    for [resp.Request.URL]. *)
Record Response : Type := {
  StatusCode : Z;
  Header : gmap string (list string);
  Body : bodyReader;
  RequestURL : string
}.

(** [Header.Get]: the first value stored under the key, or the empty
    string.  The keys used here are already in canonical form. *)
Definition Header_Get (h : gmap string (list string)) (key : string) : string :=
  match h !! key with
  | Some (v :: _) => v
  | _ => ""
  end.

(** What one call of [http.DefaultTransport.RoundTrip] gives back.  By the
    [RoundTripper] contract a response comes with a nil error and an
    error with a nil response. *)
Inductive outcome : Type :=
| GotResponse (resp : Response)
| GotError (err : error).

Definition respOf (o : outcome) : option Response :=
  match o with GotResponse r => Some r | GotError _ => None end.

Definition errOf (o : outcome) : option error :=
  match o with GotResponse _ => None | GotError e => Some e end.

Definition headerRetryAfter : string := "Retry-After".
Definition Second : Z := 1000000000.
Definition defaultTimeout : Z := 30 * Second.

Definition StatusOK : Z := 200.
Definition StatusRequestTimeout : Z := 408.
Definition StatusTooManyRequests : Z := 429.

(** [isRetryable] returns whether the request should be retried based on
    the response status code or error type. *)
Definition isRetryable (o : outcome) : bool * option error :=
  match o with
  | GotError err =>
      if asNetTimeout err then (true, None) else (false, Some err)
  | GotResponse resp =>
      if (StatusCode resp =? StatusRequestTimeout)
         || (StatusCode resp =? StatusTooManyRequests)
      then (true, None)
      else if (StatusCode resp =? 0) || (StatusCode resp >=? 500)
      then (true, None)
      else (false, None)
  end.

(** [int64] wrap-around. *)
Definition wrap64 (z : Z) : Z :=
  (z + 2 ^ 63) mod 2 ^ 64 - 2 ^ 63.

Definition maxUint64 : Z := 2 ^ 64 - 1.

(** The two errors of [strconv]. *)
Inductive numError : Type :=
| ErrSyntax
| ErrRange.

(** The loop of [strconv.ParseUint(s, 10, 64)] over the bytes of [s], [n]
    being the value so far.  A byte that is not a decimal digit is a
    syntax error.  A digit that takes the value beyond [uint64] is a range
    error: it is returned at that digit, with the largest [uint64], and
    the bytes after it are not looked at. *)
Fixpoint ParseUint_loop (n : Z) (s : list ascii) : Z * option numError :=
  match s with
  | [] => (n, None)
  | c :: s' =>
      if isDigitByte c
      then
        let d := Z.of_N (N_of_ascii c) - 48 in
        if n >=? maxUint64 / 10 + 1 then (maxUint64, Some ErrRange)
        else
          let n10 := n * 10 in
          let n1 := (n10 + d) mod 2 ^ 64 in
          if (n1 <? n10) || (n1 >? maxUint64)
          then (maxUint64, Some ErrRange)
          else ParseUint_loop n1 s'
      else (0, Some ErrSyntax)
  end.

(** [strconv.ParseUint(s, 10, 64)]; the empty string is a syntax error. *)
Definition ParseUint10 (s : list ascii) : Z * option numError :=
  match s with
  | [] => (0, Some ErrSyntax)
  | _ => ParseUint_loop 0 s
  end.

(** The value [strconv.ParseInt(v, 10, 64)] returns, its error dropped as
    the caller drops it: a leading sign is picked off and the rest parsed
    unsigned; the value is 0 on a syntax error and the nearest bound of
    [int64] on a range error. *)
Definition ParseInt10 (v : string) : Z :=
  match list_ascii_of_string v with
  | [] => 0
  | c :: rest =>
      let neg := Ascii.eqb c "-" in
      let s := if Ascii.eqb c "+" || neg then rest else c :: rest in
      match ParseUint10 s with
      | (_, Some ErrSyntax) => 0
      | (un, _) =>
          let cutoff := 2 ^ 63 in
          if negb neg && (un >=? cutoff) then cutoff - 1
          else if neg && (un >? cutoff) then - cutoff
          else if neg then wrap64 (- wrap64 un) else wrap64 un
      end
  end.

(** The number a string of decimal digits denotes; [None] when a byte of
    it is not a digit. *)
Fixpoint parseDigits (acc : Z) (s : list ascii) : option Z :=
  match s with
  | [] => Some acc
  | c :: s' =>
      if isDigitByte c
      then parseDigits (acc * 10 + (Z.of_N (N_of_ascii c) - 48)) s'
      else None
  end.

(** [retryAfter] returns the server-requested wait from a Retry-After
    header, or zero if not present or unparseable. *)
Definition retryAfter (resp : option Response) : Z :=
  match resp with
  | None => 0
  | Some r =>
      let v := Header_Get (Header r) headerRetryAfter in
      if negb (String.eqb v "") && (ParseInt10 v >? 0)
      then wrap64 (ParseInt10 v * Second)
      else 0
  end.

(** [retryTransport] is an [http.RoundTripper] that retries transient
    failures with a fixed delay. *)
Record retryTransport : Type := {
  maxRetry : Z;
  wait : Z
}.

Definition newRetryTransport : retryTransport :=
  {| maxRetry := 3; wait := 1 * Second |}.

(** The request fields [RoundTrip] reads.  [GetBody], when set, is called
    once per retry; its answer may depend on how many attempts were
    sent. *)
Record Request : Type := {
  reqBody : option (list Byte.byte);
  GetBody : option (nat -> result (list Byte.byte))
}.

(** The surroundings of one [RoundTrip] call: what the [k]-th call of
    [http.DefaultTransport.RoundTrip] returns, whether the context's
    [Done] channel wins the [select] of the wait that follows the [k]-th
    attempt, and the context's [Err()]. *)
Record retryEnv : Type := {
  transport : nat -> outcome;
  ctxDone : nat -> bool;
  ctxErr : error
}.

(** What [RoundTrip] did to the outside: the requests sent, the response
    bodies closed, and the waits slept to their end. *)
Record netWorld : Type := {
  sent : nat;
  closed : nat;
  slept : list Z
}.

Definition world0 : netWorld := {| sent := 0; closed := 0; slept := [] |}.

Definition sendOne (w : netWorld) : netWorld :=
  {| sent := S (sent w); closed := closed w; slept := slept w |}.

Definition closeBody (w : netWorld) : netWorld :=
  {| sent := sent w; closed := S (closed w); slept := slept w |}.

Definition sleepFor (d : Z) (w : netWorld) : netWorld :=
  {| sent := sent w; closed := closed w; slept := slept w ++ [d] |}.

(** The pair of a response pointer and an error [RoundTrip] returns. *)
Definition reply : Type := option Response * option error.

Definition replyOf (o : outcome) : reply := (respOf o, errOf o).

(** One turn of the loop either returns or goes on with the next attempt. *)
Inductive turn : Type :=
| Return (r : reply) (w : netWorld)
| Continue (req : Request) (w : netWorld).

(** The block [if req.Body != nil { ... }]: the request to retry with,
    or [None] when the body cannot be sent again ([GetBody] is nil or
    fails) and the loop has to give up.  [k] counts the requests sent
    before this one. *)
Definition rebuildBody (req : Request) (k : nat) : option Request :=
  match reqBody req with
  | None => Some req
  | Some _ =>
      match GetBody req with
      | None => None
      | Some get =>
          match get k with
          | Err _ => None
          | Ok body => Some {| reqBody := Some body; GetBody := GetBody req |}
          end
      end
  end.

(** The body of the [for] loop of [RoundTrip], at attempt number
    [attempt], the [k]-th request being the next to go out ([k = sent w]). *)
Definition attemptOnce (t : retryTransport) (env : retryEnv)
    (req : Request) (attempt : Z) (w : netWorld) : turn :=
  let k := sent w in
  let o := transport env k in
  let w := sendOne w in
  if attempt >=? maxRetry t then Return (replyOf o) w
  else
    match isRetryable o with
    | (_, Some retryErr) =>
        let w := match errOf o with None => closeBody w | Some _ => w end in
        Return (None, Some retryErr) w
    | (false, None) => Return (replyOf o) w
    | (true, None) =>
        match rebuildBody req k with
        | None => Return (replyOf o) w
        | Some req' =>
            let w := match errOf o with None => closeBody w | Some _ => w end in
            let d := if retryAfter (respOf o) >? 0
                     then retryAfter (respOf o) else wait t in
            if ctxDone env k then Return (None, Some (ctxErr env)) w
            else Continue req' (sleepFor d w)
        end
    end.

(** The loop [for attempt := 0; ; attempt++], unrolled at most [fuel]
    times. *)
Fixpoint roundTripLoop (fuel : nat) (t : retryTransport) (env : retryEnv)
    (req : Request) (attempt : Z) (w : netWorld) : option (reply * netWorld) :=
  match fuel with
  | O => None
  | S fuel' =>
      match attemptOnce t env req attempt w with
      | Return r w' => Some (r, w')
      | Continue req' w' => roundTripLoop fuel' t env req' (attempt + 1) w'
      end
  end.

(** [RoundTrip] executes an HTTP request with retry logic.  The loop ends
    at the latest when [attempt] reaches [maxRetry], so
    [maxRetry + 1] turns are enough (one when [maxRetry] is negative). *)
Definition RoundTrip (t : retryTransport) (env : retryEnv) (req : Request)
  : option (reply * netWorld) :=
  roundTripLoop (S (Z.to_nat (maxRetry t))) t env req 0 world0.

(** A request can be replayed when its body, if any, can be rebuilt at
    every attempt. *)
Definition canReplay (req : Request) : Prop :=
  forall k, rebuildBody req k <> None.

(** The [j] outcomes from number [start] on are retryable and no wait
    among them is cancelled. *)
Definition retriedFrom (env : retryEnv) (start j : nat) : Prop :=
  forall i, (start <= i < start + j)%nat ->
    isRetryable (transport env i) = (true, None) /\ ctxDone env i = false.

(** Fixtures: bare responses, a GET without a body, a request whose body
    cannot be sent again, and surroundings that answer every attempt the
    same way and never cancel. *)
Definition emptyBody : bodyReader :=
  {| bodyData := []; bodyErr := None; endWithData := false |}.

Definition statusOnly (code : Z) : Response :=
  {| StatusCode := code; Header := ∅; Body := emptyBody; RequestURL := "" |}.

Definition getRequest : Request := {| reqBody := None; GetBody := None |}.

Definition oneShotRequest : Request :=
  {| reqBody := Some []; GetBody := None |}.

Definition always (o : outcome) : retryEnv :=
  {| transport := fun _ => o; ctxDone := fun _ => false;
     ctxErr := ErrContextCanceled |}.

Definition timedOut : error := ErrNet true "i/o timeout".

(** A server that answers 503 every time, and a caller that cancels
    during the first wait. *)
Definition cancelledAtFirstWait : retryEnv :=
  {| transport := fun _ => GotResponse (statusOnly 503);
     ctxDone := fun k => Nat.eqb k 0;
     ctxErr := ErrContextCanceled |}.

(* ================================================================= *)
(** ** The bounded HTTP fetcher (fetcher.go) *)

(** [defaultMaxResponseBytes] limits response body reads: 4 MiB. *)
Definition defaultMaxResponseBytes : Z := 4 * 1024 * 1024.

(** [io.LimitReader(r, n)].  Its [Read] answers end of file at once when
    nothing is left of [n]; otherwise it asks [r] for no more bytes than
    are left of [n] and hands on what [r] answers, the bytes and the
    error.  So it yields the first [n] bytes of [r] and then end of file,
    and the end of [r] itself (end of file or an error) shows when [r]
    holds fewer than [n] bytes, and also when [r] holds exactly [n] bytes
    and reports its end together with the last of them. *)
Definition io_LimitReader (r : bodyReader) (n : Z) : bodyReader :=
  let len := Z.of_nat (length (bodyData r)) in
  let reachesEnd :=
    (0 <? n) && ((len <? n) || ((len =? n) && endWithData r)) in
  {| bodyData := firstn (Z.to_nat n) (bodyData r);
     bodyErr := if reachesEnd then bodyErr r else None;
     endWithData := reachesEnd && endWithData r |}.

(** [io.ReadAll]: it reads until a [Read] reports an end, and returns
    the bytes read with the error, end of file counting as none. *)
Definition io_ReadAll (r : bodyReader) : list Byte.byte * option error :=
  (bodyData r, bodyErr r).

(** [limitReader] returns a Reader that stops after [n] bytes.  If [n] is
    zero or negative, [defaultMaxResponseBytes] is used. *)
Definition limitReader (r : bodyReader) (n : Z) : bodyReader :=
  let n := if n <=? 0 then defaultMaxResponseBytes else n in
  io_LimitReader r n.

(** The surroundings of one [HTTPFetcher.Fetch]: whether
    [http.NewRequestWithContext] accepts the URL, and what
    [defaultClient.Do] returns for the GET. *)
Record httpEnv : Type := {
  newRequestErr : string -> option error;
  clientDo : string -> outcome
}.

(** What a [Fetch] returns: the data and the source identifier, or the
    error (the data nil and the identifier empty). *)
Definition fetched : Type := result (list Byte.byte * string).

Definition HTTPFetcher_Fetch (f : HTTPFetcher) (env : httpEnv) : fetched :=
  match newRequestErr env (fetchURL f) with
  | Some err => Err (ErrWrap "creating request" err)
  | None =>
      match clientDo env (fetchURL f) with
      | GotError err => Err (ErrWrap "executing request" err)
      | GotResponse resp =>
          if negb (StatusCode resp =? StatusOK)
          then Err (ErrStatus "GET" (RequestURL resp) (StatusCode resp))
          else
            match io_ReadAll (limitReader (Body resp) (MaxResponseBytes f)) with
            | (_, Some err) => Err (ErrWrap "reading response body" err)
            | (body, None) => Ok (body, fetchURL f)
            end
      end
  end.

(** The cap a fetcher reads under: its override when positive, the
    default otherwise. *)
Definition effectiveCap (f : HTTPFetcher) : Z :=
  if MaxResponseBytes f <=? 0 then defaultMaxResponseBytes
  else MaxResponseBytes f.

(** Whether a read under the cap of [f] gets to the end of the body [r]:
    [r] holds fewer bytes than the cap, or exactly as many and reports
    its end together with the last of them. *)
Definition seesEnd (f : HTTPFetcher) (r : bodyReader) : bool :=
  let len := Z.of_nat (length (bodyData r)) in
  (len <? effectiveCap f) || ((len =? effectiveCap f) && endWithData r).

(** A body of five bytes whose reader fails after them, the failure
    coming with the last bytes ([true]) or from the next [Read]. *)
Definition servesFiveBytesThenFails (withLast : bool) : httpEnv :=
  {| newRequestErr := fun _ => None;
     clientDo := fun url =>
       GotResponse {| StatusCode := 200; Header := ∅;
                      Body := {| bodyData :=
                                   [Byte.x68; Byte.x65; Byte.x6c; Byte.x6c;
                                    Byte.x6f];
                                 bodyErr := Some (ErrPlain "unexpected EOF");
                                 endWithData := withLast |};
                      RequestURL := url |} |}.

(** Fixtures: a fetcher capped at three bytes, and surroundings in which
    the server answers 200 with a five-byte body. *)
Definition cappedFetcher : HTTPFetcher :=
  {| fetchURL := "https://example.com/a/v1.2.3/b.yaml"; MaxResponseBytes := 3 |}.

(** Fetchers of the same URL with the zero override, a negative override
    and a cap of exactly five bytes. *)
Definition uncappedFetcher : HTTPFetcher :=
  {| fetchURL := "https://example.com/a/v1.2.3/b.yaml"; MaxResponseBytes := 0 |}.

Definition negativeCapFetcher : HTTPFetcher :=
  {| fetchURL := "https://example.com/a/v1.2.3/b.yaml";
     MaxResponseBytes := -1 |}.

Definition fiveByteFetcher : HTTPFetcher :=
  {| fetchURL := "https://example.com/a/v1.2.3/b.yaml"; MaxResponseBytes := 5 |}.

Definition fiveBytes : list Byte.byte :=
  [Byte.x68; Byte.x65; Byte.x6c; Byte.x6c; Byte.x6f].

Definition servesFiveBytes : httpEnv :=
  {| newRequestErr := fun _ => None;
     clientDo := fun url =>
       GotResponse {| StatusCode := 200; Header := ∅;
                      Body := {| bodyData := fiveBytes; bodyErr := None;
                                 endWithData := false |};
                      RequestURL := url |} |}.

(* ================================================================= *)
(** ** The TTL cache *)

(** Modelled from the spec: the cache entry of the TTL Cache (the file
    that declares [Cache] is not among the sources).  An entry holds the
    payload, the source identifier and the insertion time. *)
Record cacheEntry : Type := {
  payload : list Byte.byte;
  sourceID : string;
  insertedAt : Z
}.

(** Modelled from the spec: the TTL Cache, a mapping from a source key to
    its entry together with the fixed lifetime of entries.  Times and
    durations are nanoseconds. *)
Record Cache : Type := {
  ttl : Z;
  entries : gmap string cacheEntry
}.

(** Modelled from the spec: [NewCache(ttl)], an empty cache. *)
Definition NewCache (ttl : Z) : Cache := {| ttl := ttl; entries := ∅ |}.

(** Modelled from the spec: [get(key)] at clock reading [now] returns a
    hit only if an entry exists for [key] and its age ([now] minus
    inserted-at) is strictly less than the TTL; an expired entry reports
    not found without being removed.  The cache after the call is
    returned with the answer. *)
Definition Cache_Get (c : Cache) (now : Z) (key : string)
  : (list Byte.byte * string * bool) * Cache :=
  match entries c !! key with
  | Some e =>
      if now - insertedAt e <? ttl c
      then ((payload e, sourceID e, true), c)
      else (([], "", false), c)
  | None => (([], "", false), c)
  end.

(** Modelled from the spec: [set(key, bytes, sourceIdentifier)] at clock
    reading [now] unconditionally stores or overwrites the entry for
    [key] with the current timestamp. *)
Definition Cache_Set (c : Cache) (now : Z) (key : string)
    (data : list Byte.byte) (source : string) : Cache :=
  {| ttl := ttl c;
     entries := <[key := {| payload := data; sourceID := source;
                            insertedAt := now |}]> (entries c) |}.

(* ================================================================= *)
(** ** The cached fetcher (fetcher.go) *)

(** What one call of a wrapped fetcher gives back, and how long it took. *)
Record fetchReply : Type := {
  fetchResult : fetched;
  elapsed : Z
}.

(** [Fetcher] is a generic interface for fetching raw data from a source.
    An implementation answers its [k]-th invocation; it holds no
    reference to the cache. *)
Class Fetcher (F : Type) : Type := {
  Fetch : F -> nat -> fetchReply
}.

(** A scripted fetcher: the replies, by invocation. *)
#[export] Instance scriptedFetcher : Fetcher (nat -> fetchReply) := {
  Fetch := fun script k => script k
}.

(** The [HTTPFetcher] as a [Fetcher], in given surroundings. *)
Definition httpFetcher (envs : nat -> httpEnv) (took : nat -> Z)
  : Fetcher HTTPFetcher := {|
  Fetch := fun f k =>
    {| fetchResult := HTTPFetcher_Fetch f (envs k); elapsed := took k |}
|}.

(** [CachedFetcher] wraps a [Fetcher] with caching behavior.  Its [cache]
    field is a pointer to a cache shared with others: the cache itself
    lives in the world below. *)
Record CachedFetcher (F : Type) : Type := {
  fetcher : F;
  source : string
}.
Arguments fetcher {F} c.
Arguments source {F} c.

(** [NewCachedFetcher] creates a new cached fetcher that wraps the
    provided fetcher. *)
Definition NewCachedFetcher {F : Type} (f : F) (source : string)
  : CachedFetcher F :=
  {| fetcher := f; source := source |}.

(** The state a [CachedFetcher.Fetch] runs in: the shared cache, the
    clock, and how many times wrapped fetchers were invoked. *)
Record fetchWorld : Type := {
  cache : Cache;
  clock : Z;
  fetches : nat
}.

(** The triple [CachedFetcher.Fetch] returns. *)
Definition fetchReturn : Type := list Byte.byte * string * option error.

(** [Fetch] retrieves data, checking cache first and storing results in
    cache.  If [refresh] is true, bypasses cache and fetches fresh data. *)
Definition CachedFetcher_Fetch {F : Type} `{Fetcher F} (c : CachedFetcher F)
    (refresh : bool) (w : fetchWorld) : fetchReturn * fetchWorld :=
  let invoke (w : fetchWorld) : fetchReturn * fetchWorld :=
    let r := Fetch (fetcher c) (fetches w) in
    let w := {| cache := cache w; clock := clock w + elapsed r;
                fetches := S (fetches w) |} in
    match fetchResult r with
    | Err err => (([], "", Some err), w)
    | Ok (data, sourceID) =>
        ((data, sourceID, None),
         {| cache := Cache_Set (cache w) (clock w) (source c) data sourceID;
            clock := clock w; fetches := fetches w |})
    end in
  if negb refresh
  then
    match Cache_Get (cache w) (clock w) (source c) with
    | ((cachedData, cachedSource, true), cache') =>
        ((cachedData, cachedSource, None),
         {| cache := cache'; clock := clock w; fetches := fetches w |})
    | (_, cache') =>
        invoke {| cache := cache'; clock := clock w; fetches := fetches w |}
    end
  else invoke w.

(** [defaultCacheTTL] of the command line: one hour. *)
Definition defaultCacheTTL : Z := 3600 * Second.

(** Whether the cache reports a hit for the configured source key. *)
Definition cacheHit {F : Type} (c : CachedFetcher F) (w : fetchWorld) : bool :=
  snd (fst (Cache_Get (cache w) (clock w) (source c))).

(** What the wrapped fetcher answers if it is invoked now. *)
Definition nextFetch {F : Type} `{Fetcher F} (c : CachedFetcher F)
    (w : fetchWorld) : fetchReply :=
  Fetch (fetcher c) (fetches w).

(** Fixtures: a scripted fetcher that succeeds in one second, one that
    fails, and a start with an empty cache. *)
Definition servesHello : nat -> fetchReply :=
  fun _ => {| fetchResult := Ok (fiveBytes, "https://example.com/x");
              elapsed := Second |}.

Definition failsToFetch : nat -> fetchReply :=
  fun _ => {| fetchResult := Err (ErrWrap "executing request" timedOut);
              elapsed := Second |}.

Definition freshWorld : fetchWorld :=
  {| cache := NewCache defaultCacheTTL; clock := 0; fetches := 0 |}.

(* ================================================================= *)
(** ** The tool wrappers (mode.go) *)

Definition defaultSchemaVersion : string := "latest".
Definition defaultLexiconVersion : string := "v0.19.1".
Definition lexiconBaseURL : string :=
  "https://raw.githubusercontent.com/gemaraproj/gemara/".
Definition lexiconPathSuffix : string := "/docs/lexicon.yaml".
Definition schemaDocsBaseURL : string :=
  "https://registry.cue.works/docs/github.com/gemaraproj/gemara@".

(** The inputs of the two tools, as far as the wrappers read them. *)
Record InputGetLexicon : Type := {
  lexiconVersion : string;
  lexiconRefresh : bool
}.

Record InputGetSchemaDocs : Type := {
  schemaVersion : string;
  schemaRefresh : bool
}.

Section Mode.
Context `{NetURL}.

(** [AdvisoryMode] defines tools and resources for operating in a
    read-only query mode.  Its [cache] pointer is the shared cache of
    the world. *)
Record AdvisoryMode : Type := {
  lexiconURLBuilder : URLBuilder;
  schemaDocsURLBuilder : URLBuilder
}.

(** [NewAdvisoryMode] creates a new [AdvisoryMode] with the default URLs. *)
Definition NewAdvisoryMode : result AdvisoryMode :=
  match NewURLBuilder lexiconBaseURL lexiconPathSuffix with
  | Err err => Err (ErrWrap "configuring lexicon URL" err)
  | Ok lexBuilder =>
      match NewURLBuilder schemaDocsBaseURL "" with
      | Err err => Err (ErrWrap "configuring schema docs URL" err)
      | Ok schemaBuilder =>
          Ok {| lexiconURLBuilder := lexBuilder;
                schemaDocsURLBuilder := schemaBuilder |}
      end
  end.

(** The handlers [GetLexicon] and [GetSchemaDocs] the wrappers end in are
    not among the sources: they are taken as given, with the type of
    what they return. *)
Variable Out : Type.
Variable GetLexicon : InputGetLexicon -> CachedFetcher HTTPFetcher -> Out.
Variable GetSchemaDocs : InputGetSchemaDocs -> CachedFetcher HTTPFetcher -> Out.

(** [getLexicon] wraps [GetLexicon] with cache access and configuration. *)
Definition getLexicon (a : AdvisoryMode) (input : InputGetLexicon)
  : result Out :=
  let version := lexiconVersion input in
  let version := if String.eqb version "" then defaultLexiconVersion else version in
  match NewHTTPFetcher (lexiconURLBuilder a) version with
  | Err err => Err err
  | Ok f =>
      let cf := NewCachedFetcher f (HTTPFetcher_URL f) in
      Ok (GetLexicon input cf)
  end.

(** [getSchemaDocs] wraps [GetSchemaDocs] with cache access and
    configuration. *)
Definition getSchemaDocs (a : AdvisoryMode) (input : InputGetSchemaDocs)
  : result Out :=
  let version := schemaVersion input in
  let version := if String.eqb version "" then defaultSchemaVersion else version in
  match NewHTTPFetcher (schemaDocsURLBuilder a) version with
  | Err err => Err err
  | Ok f =>
      let cf := NewCachedFetcher f (HTTPFetcher_URL f) in
      Ok (GetSchemaDocs input cf)
  end.

End Mode.

(* ================================================================= *)
(** ** Accounting of a [RoundTrip] *)

(** How many of the first [n] outcomes of the transport are responses:
    the bodies that were opened by the time [n] requests went out. *)
Fixpoint responsesAmong (env : retryEnv) (n : nat) : nat :=
  match n with
  | O => O
  | S n' =>
      match transport env n' with
      | GotResponse _ => S (responsesAmong env n')
      | GotError _ => responsesAmong env n'
      end
  end.

(** The bodies an outcome opens (one for a response), and the open body a
    reply hands to the caller (one when it holds a response). *)
Definition opened (o : outcome) : nat :=
  match o with GotResponse _ => 1%nat | GotError _ => 0%nat end.

Definition handedOver (r : reply) : nat :=
  match fst r with Some _ => 1%nat | None => 0%nat end.

(** The wait [RoundTrip] chooses after outcome [o]: the server's
    [Retry-After] when it is positive, the fixed wait otherwise. *)
Definition waitAfter (t : retryTransport) (o : outcome) : Z :=
  if retryAfter (respOf o) >? 0 then retryAfter (respOf o) else wait t.

(** The largest [Retry-After], in seconds, whose duration fits [int64]. *)
Definition maxRetryAfterSeconds : Z := 9223372036.

(* ================================================================= *)
(** ** Prompt arguments and handlers (prompts.go) *)

(** [[a-zA-Z0-9]] and [[a-zA-Z0-9 ._-]], as ranges. *)
Definition class_alnum : charClass := [(48, 57); (65, 90); (97, 122)]%N.
Definition class_component : charClass :=
  [(32, 32); (45, 46); (48, 57); (65, 90); (95, 95); (97, 122)]%N.
(** [[A-Z0-9.-]] *)
Definition class_id_prefix : charClass := [(45, 46); (48, 57); (65, 90)]%N.

(** [regexp.MustCompile(`^[a-zA-Z0-9][a-zA-Z0-9 ._-]*$`)] *)
Definition validComponentPattern : regexp :=
  OpConcat (OpCharClass class_alnum) (OpStar (OpCharClass class_component)).

(** [regexp.MustCompile(`^[A-Z0-9.-]+$`)] *)
Definition validIDPrefixPattern : regexp :=
  OpPlus (OpCharClass class_id_prefix).

Definition maxPromptArgLen : nat := 200.

(** The errors of the prompt package, one constructor per message. *)
Inductive promptError : Type :=
| ErrComponentRequired
    (* "component argument is required" *)
| ErrComponentTooLong (limit : nat)
    (* "component argument exceeds maximum length of %d" *)
| ErrComponentPattern (value : string)
    (* "component %q must match ^[a-zA-Z0-9][a-zA-Z0-9 ._-]*$ (...)" *)
| ErrIDPrefixRequired
    (* "id_prefix argument is required" *)
| ErrIDPrefixTooLong (limit : nat)
    (* "id_prefix argument exceeds maximum length of %d" *)
| ErrIDPrefixPattern (value : string).
    (* "id_prefix %q must match ^[A-Z0-9.-]+$ (...)" *)

Definition validateComponent (value : string) : option promptError :=
  if String.eqb value "" then Some ErrComponentRequired
  else if (maxPromptArgLen <? String.length value)%nat
  then Some (ErrComponentTooLong maxPromptArgLen)
  else if negb (MatchString validComponentPattern value)
  then Some (ErrComponentPattern value)
  else None.

Definition validateIDPrefix (value : string) : option promptError :=
  if String.eqb value "" then Some ErrIDPrefixRequired
  else if (maxPromptArgLen <? String.length value)%nat
  then Some (ErrIDPrefixTooLong maxPromptArgLen)
  else if negb (MatchString validIDPrefixPattern value)
  then Some (ErrIDPrefixPattern value)
  else None.

(** [strings.HasPrefix] on bytes. *)
Fixpoint hasPrefix (p s : list ascii) : bool :=
  match p, s with
  | [], _ => true
  | _ :: _, [] => false
  | a :: p', b :: s' => Ascii.eqb a b && hasPrefix p' s'
  end.

(** The first pair, in argument order, whose old string starts [s]: its
    new string and the length of the old one. *)
Fixpoint lookupPair (pairs : list (list ascii * list ascii)) (s : list ascii)
  : option (list ascii * nat) :=
  match pairs with
  | [] => None
  | (old, new) :: rest =>
      if hasPrefix old s then Some (new, length old) else lookupPair rest s
  end.

(** [strings.NewReplacer(old1, new1, ...).Replace] for non-empty old
    strings: the text is read from the left; where an old string starts,
    its new string is written and the old one skipped, without looking
    at the text written; elsewhere the byte is copied.  [skip] counts the
    bytes of a matched old string still to pass over. *)
Fixpoint replaceFrom (pairs : list (list ascii * list ascii)) (skip : nat)
    (s : list ascii) : list ascii :=
  match s with
  | [] => []
  | c :: s' =>
      match skip with
      | S k => replaceFrom pairs k s'
      | O =>
          match lookupPair pairs s with
          | Some (new, n) => new ++ replaceFrom pairs (Nat.pred n) s'
          | None => c :: replaceFrom pairs 0 s'
          end
      end
  end.

Definition Replacer_Replace (pairs : list (list ascii * list ascii))
    (s : string) : string :=
  string_of_list_ascii (replaceFrom pairs 0 (list_ascii_of_string s)).

Definition placeholderComponent : list ascii :=
  list_ascii_of_string "${COMPONENT}".
Definition placeholderIDPrefix : list ascii :=
  list_ascii_of_string "${ID_PREFIX}".

(** [strings.NewReplacer("${COMPONENT}", component, "${ID_PREFIX}", idPrefix)] *)
Definition promptReplacer (component idPrefix : string)
  : list (list ascii * list ascii) :=
  [(placeholderComponent, list_ascii_of_string component);
   (placeholderIDPrefix, list_ascii_of_string idPrefix)].

(** The request of a prompt, as far as the handlers read it: [Params] and
    its [Arguments] map may each be nil. *)
Record GetPromptParams : Type := {
  Arguments : option (gmap string string)
}.

Record GetPromptRequest : Type := {
  Params : option GetPromptParams
}.

Record PromptMessage : Type := {
  Role : string;
  Text : string
}.

Record GetPromptResult : Type := {
  Description : string;
  Messages : list PromptMessage
}.

(** Reading a Go map: the zero value for a missing key. *)
Definition argument (args : gmap string string) (key : string) : string :=
  match args !! key with
  | Some v => v
  | None => ""
  end.

Section PromptHandlers.
(** The embedded templates ([//go:embed ..._system.md], [..._user.md]). *)
Variable controlCatalogSystemTemplate : string.
Variable controlCatalogUserTemplate : string.
Variable threatAssessmentSystemTemplate : string.
Variable threatAssessmentUserTemplate : string.

(** [HandleControlCatalog] returns the control catalog wizard prompt
    messages. *)
Definition HandleControlCatalog (req : GetPromptRequest)
  : GetPromptResult + promptError :=
  match Params req with
  | None => inr ErrComponentRequired
  | Some params =>
      match Arguments params with
      | None => inr ErrComponentRequired
      | Some args =>
          let component := argument args "component" in
          let idPrefix := argument args "id_prefix" in
          match validateComponent component with
          | Some err => inr err
          | None =>
              match validateIDPrefix idPrefix with
              | Some err => inr err
              | None =>
                  let r := promptReplacer component idPrefix in
                  inl {| Description :=
                           "Control catalog wizard for " +:+ component
                             +:+ " (" +:+ idPrefix +:+ ")";
                         Messages :=
                           [ {| Role := "assistant";
                                Text := Replacer_Replace r
                                          controlCatalogSystemTemplate |};
                             {| Role := "user";
                                Text := Replacer_Replace r
                                          controlCatalogUserTemplate |} ] |}
              end
          end
      end
  end.

(** [HandleThreatAssessment] returns the threat assessment wizard prompt
    messages. *)
Definition HandleThreatAssessment (req : GetPromptRequest)
  : GetPromptResult + promptError :=
  match Params req with
  | None => inr ErrComponentRequired
  | Some params =>
      match Arguments params with
      | None => inr ErrComponentRequired
      | Some args =>
          let component := argument args "component" in
          let idPrefix := argument args "id_prefix" in
          match validateComponent component with
          | Some err => inr err
          | None =>
              match validateIDPrefix idPrefix with
              | Some err => inr err
              | None =>
                  let r := promptReplacer component idPrefix in
                  inl {| Description :=
                           "Threat assessment wizard for " +:+ component
                             +:+ " (" +:+ idPrefix +:+ ")";
                         Messages :=
                           [ {| Role := "assistant";
                                Text := Replacer_Replace r
                                          threatAssessmentSystemTemplate |};
                             {| Role := "user";
                                Text := Replacer_Replace r
                                          threatAssessmentUserTemplate |} ] |}
              end
          end
      end
  end.

End PromptHandlers.

(** The characters of the two argument patterns, by name. *)
Definition alnumChars : list ascii :=
  list_ascii_of_string
    "abcdefghijklmnopqrstuvwxyzABCDEFGHIJKLMNOPQRSTUVWXYZ0123456789".

Definition componentChars : list ascii :=
  list_ascii_of_string " ._-" ++ alnumChars.

Definition idPrefixChars : list ascii :=
  list_ascii_of_string "ABCDEFGHIJKLMNOPQRSTUVWXYZ0123456789.-".

(** A request with the two arguments set. *)
Definition promptRequest (component idPrefix : string) : GetPromptRequest :=
  {| Params := Some {| Arguments :=
       Some (<["component" := component]> (<["id_prefix" := idPrefix]> ∅)) |} |}.

(* ================================================================= *)
(** ** The version pattern in the words of the specification *)

Definition digitChars : list ascii := list_ascii_of_string "0123456789".

Definition wordChars : list ascii :=
  list_ascii_of_string
    "abcdefghijklmnopqrstuvwxyzABCDEFGHIJKLMNOPQRSTUVWXYZ0123456789_".

(** Every byte of [s] is one of [alphabet]. *)
Definition allOf (alphabet s : list ascii) : bool :=
  forallb (fun c => existsb (Ascii.eqb c) alphabet) s.

(** A non-empty run of bytes of [alphabet]. *)
Definition run (alphabet s : list ascii) : Prop :=
  s <> [] /\ allOf alphabet s = true.

(** [v<digits>.<digits>.<digits>], optionally followed by a hyphen and a
    non-empty sequence of word characters and dots. *)
Definition semverLike (s : list ascii) : Prop :=
  exists major minor patch rest,
    s = "v"%char :: major ++ "."%char :: minor ++ "."%char :: patch ++ rest
    /\ run digitChars major
    /\ run digitChars minor
    /\ run digitChars patch
    /\ (rest = []
        \/ exists tag, rest = "-"%char :: tag
                       /\ run ("."%char :: wordChars) tag).

(** What the specification says the validator accepts. *)
Definition acceptedBySpec (version : string) : Prop :=
  semverLike (list_ascii_of_string version) \/ version = "latest".

(** The bytes an accepted version is made of: word characters, dots and
    hyphens. *)
Definition versionAlphabet : list ascii :=
  "-"%char :: "."%char :: wordChars.

(** The bytes the specification singles out as rejected: slash, question
    mark, hash, space and NUL. *)
Definition injectionBytes : list ascii :=
  ["/"; "?"; "#"; " "; "000"]%char.

(* ================================================================= *)
(** * Properties *)

(** ** The matcher decides the language *)

Lemma nullable_lang r : nullable r = true <-> lang r [].
Proof.
  split.
  - induction r; simpl; intros Hn; try discriminate.
    + constructor.
    + apply andb_true_iff in Hn as [H1 H2].
      change (@nil ascii) with (@nil ascii ++ []). constructor; auto.
    + apply orb_true_iff in Hn as [H1 | H2].
      * apply L_AltL; auto.
      * apply L_AltR; auto.
    + constructor.
    + change (@nil ascii) with (@nil ascii ++ []). constructor; auto.
      constructor.
    + constructor.
  - induction r; intros Hl; inversion Hl; subst; simpl; auto.
    + match goal with E : _ ++ _ = [] |- _ =>
        apply app_eq_nil in E as [-> ->] end.
      rewrite IHr1, IHr2; auto.
    + rewrite IHr1; auto.
    + rewrite IHr2; auto. apply orb_true_r.
    + match goal with E : _ ++ _ = [] |- _ =>
        apply app_eq_nil in E as [-> ->] end.
      auto.
Qed.

(** A non-empty word of a starred language starts with a non-empty word
    of the language. *)
Lemma star_uncons r c s :
  lang (OpStar r) (c :: s) ->
  exists s1 s2, s = s1 ++ s2 /\ lang r (c :: s1) /\ lang (OpStar r) s2.
Proof.
  intros Hl. remember (OpStar r) as r' eqn:Er. remember (c :: s) as w eqn:Ew.
  revert c s Ew. induction Hl; intros c' s' Ew; try discriminate.
  injection Er as ->.
  destruct s1 as [|a s1].
  - simpl in Ew. apply IHHl2; auto.
  - simpl in Ew. injection Ew as -> <-. exists s1, s2. auto.
Qed.

Lemma deriv_sound c r : forall s, lang (deriv c r) s -> lang r (c :: s).
Proof.
  induction r; simpl; intros s Hl.
  - inversion Hl.
  - inversion Hl.
  - destruct (Ascii.eqb c c0) eqn:E; inversion Hl; subst.
    apply Ascii.eqb_eq in E as ->. constructor.
  - destruct (inClass cls c) eqn:E; inversion Hl; subst.
    constructor; auto.
  - destruct (nullable r1) eqn:En.
    + inversion Hl as [| | | | ? ? ? Hc | ? ? ? Hd | | | | |]; subst.
      * inversion Hc; subst.
        change (c :: s1 ++ s2) with ((c :: s1) ++ s2). constructor; auto.
      * change (c :: s) with ([] ++ c :: s). constructor; auto.
        apply nullable_lang; auto.
    + inversion Hl; subst.
      change (c :: s1 ++ s2) with ((c :: s1) ++ s2). constructor; auto.
  - inversion Hl; subst.
    + apply L_AltL; auto.
    + apply L_AltR; auto.
  - inversion Hl; subst.
    change (c :: s1 ++ s2) with ((c :: s1) ++ s2). apply L_StarCons; auto.
  - inversion Hl; subst.
    change (c :: s1 ++ s2) with ((c :: s1) ++ s2). apply L_Plus; auto.
  - apply L_QuestSome; auto.
Qed.

(** Splits the equation [s1 ++ s2 = c :: s] an inversion leaves behind. *)
Ltac split_app_cons :=
  match goal with
  | E : ?s1 ++ ?s2 = _ :: _ |- _ =>
      destruct s1; simpl in E; [subst s2 | injection E as -> <-]
  end.

Lemma deriv_complete c r : forall s, lang r (c :: s) -> lang (deriv c r) s.
Proof.
  induction r; simpl; intros s Hl.
  - inversion Hl.
  - inversion Hl.
  - inversion Hl; subst. rewrite Ascii.eqb_refl. constructor.
  - inversion Hl; subst.
    match goal with Hin : inClass _ _ = true |- _ => rewrite Hin end.
    constructor.
  - inversion Hl; subst. split_app_cons.
    + match goal with H1 : lang r1 [] |- _ =>
        apply nullable_lang in H1; rewrite H1 end.
      apply L_AltR; auto.
    + match goal with |- lang _ (?s1 ++ ?s2) =>
        assert (Hc : lang (OpConcat (deriv c r1) r2) (s1 ++ s2))
          by (constructor; auto) end.
      destruct (nullable r1); [apply L_AltL|]; exact Hc.
  - inversion Hl; subst.
    + apply L_AltL; auto.
    + apply L_AltR; auto.
  - apply star_uncons in Hl as (s1 & s2 & -> & H1 & H2).
    constructor; auto.
  - inversion Hl; subst. split_app_cons.
    + match goal with H2 : lang (OpStar _) (_ :: _) |- _ =>
        apply star_uncons in H2 as (t1 & t2 & -> & H3 & H4) end.
      constructor; auto.
    + constructor; auto.
  - inversion Hl; subst. auto.
Qed.

Lemma matchBytes_lang s : forall r, matchBytes r s = true <-> lang r s.
Proof.
  induction s as [|c s IH]; intros r; simpl.
  - apply nullable_lang.
  - rewrite IH. split; [apply deriv_sound | apply deriv_complete].
Qed.

(** ** The language of the version pattern *)

Lemma lang_concat_iff r1 r2 s :
  lang (OpConcat r1 r2) s <->
  exists s1 s2, s = s1 ++ s2 /\ lang r1 s1 /\ lang r2 s2.
Proof.
  split.
  - intros Hl. inversion Hl; subst. eauto.
  - intros (s1 & s2 & -> & H1 & H2). constructor; auto.
Qed.

Lemma lang_literal_concat c r s :
  lang (OpConcat (OpLiteral c) r) s <-> exists s', s = c :: s' /\ lang r s'.
Proof.
  rewrite lang_concat_iff. split.
  - intros (s1 & s2 & -> & H1 & H2). inversion H1; subst. simpl. eauto.
  - intros (s' & -> & Hr). exists [c], s'. repeat split; auto. constructor.
Qed.

Lemma lang_alternate_iff r1 r2 s :
  lang (OpAlternate r1 r2) s <-> lang r1 s \/ lang r2 s.
Proof.
  split.
  - intros Hl. inversion Hl; subst; auto.
  - intros [Hl | Hl]; [apply L_AltL | apply L_AltR]; auto.
Qed.

Lemma lang_quest_iff r s : lang (OpQuest r) s <-> s = [] \/ lang r s.
Proof.
  split.
  - intros Hl. inversion Hl; subst; auto.
  - intros [-> | Hl]; [apply L_QuestNone | apply L_QuestSome]; auto.
Qed.

Lemma lang_literal_string l s : lang (OpLiteralString l) s <-> s = l.
Proof.
  revert s. induction l as [|c l IH]; intros s; simpl.
  - split; intros Hl; [inversion Hl; auto | subst; constructor].
  - rewrite lang_literal_concat. split.
    + intros (s' & -> & Hl). f_equal. apply IH; auto.
    + intros ->. exists l. split; auto. apply IH; auto.
Qed.

Lemma lang_star_class cls s :
  lang (OpStar (OpCharClass cls)) s <-> forallb (inClass cls) s = true.
Proof.
  split.
  - intros Hl. remember (OpStar (OpCharClass cls)) as r eqn:Er.
    induction Hl; try discriminate; auto.
    injection Er as ->. rewrite forallb_app. rewrite IHHl2 by reflexivity.
    inversion Hl1; subst. simpl.
    match goal with Hin : inClass _ _ = true |- _ => rewrite Hin end.
    reflexivity.
  - induction s as [|c s IH]; simpl; intros Hf.
    + constructor.
    + apply andb_true_iff in Hf as [Hc Hs].
      change (c :: s) with ([c] ++ s). constructor; auto. constructor; auto.
Qed.

Lemma lang_plus_class cls s :
  lang (OpPlus (OpCharClass cls)) s <->
  s <> [] /\ forallb (inClass cls) s = true.
Proof.
  split.
  - intros Hl. inversion Hl; subst.
    match goal with Hc : lang (OpCharClass _) _ |- _ => inversion Hc; subst end.
    split; [discriminate|]. simpl.
    match goal with Hin : inClass _ _ = true |- _ => rewrite Hin end.
    apply lang_star_class; auto.
  - intros [Hne Hf]. destruct s as [|c s]; [congruence|].
    simpl in Hf. apply andb_true_iff in Hf as [Hc Hs].
    change (c :: s) with ([c] ++ s). constructor.
    + constructor; auto.
    + apply lang_star_class; auto.
Qed.

(** The ranges of the classes are the characters the specification names. *)
Lemma class_d_chars c : inClass class_d c = existsb (Ascii.eqb c) digitChars.
Proof. destruct c as [[] [] [] [] [] [] [] []]; reflexivity. Qed.

Lemma class_w_dot_chars c :
  inClass class_w_dot c = existsb (Ascii.eqb c) ("."%char :: wordChars).
Proof. destruct c as [[] [] [] [] [] [] [] []]; reflexivity. Qed.

Lemma forallb_pointwise {A} (f g : A -> bool) (l : list A) :
  (forall a, f a = g a) -> forallb f l = forallb g l.
Proof.
  intros Hfg. induction l as [|a l IH]; simpl; [reflexivity|].
  rewrite Hfg, IH. reflexivity.
Qed.

Lemma plus_digits s : lang (OpPlus (OpCharClass class_d)) s <-> run digitChars s.
Proof.
  rewrite lang_plus_class. unfold run, allOf.
  rewrite (forallb_pointwise _ _ s class_d_chars). reflexivity.
Qed.

Lemma plus_word_dot s :
  lang (OpPlus (OpCharClass class_w_dot)) s <-> run ("."%char :: wordChars) s.
Proof.
  rewrite lang_plus_class. unfold run, allOf.
  rewrite (forallb_pointwise _ _ s class_w_dot_chars). reflexivity.
Qed.

Lemma validVersionPattern_lang s :
  lang validVersionPattern s <->
  semverLike s \/ s = list_ascii_of_string "latest".
Proof.
  unfold validVersionPattern. rewrite lang_alternate_iff, lang_literal_string.
  apply or_iff_compat_r. split.
  - intros Hl.
    apply lang_literal_concat in Hl as (s0 & -> & Hl).
    apply lang_concat_iff in Hl as (major & s1 & -> & Hmajor & Hl).
    apply lang_literal_concat in Hl as (s2 & -> & Hl).
    apply lang_concat_iff in Hl as (minor & s3 & -> & Hminor & Hl).
    apply lang_literal_concat in Hl as (s4 & -> & Hl).
    apply lang_concat_iff in Hl as (patch & rest & -> & Hpatch & Hl).
    apply plus_digits in Hmajor, Hminor, Hpatch.
    exists major, minor, patch, rest.
    split; [reflexivity|]. do 3 (split; [assumption|]).
    apply lang_quest_iff in Hl as [-> | Hl]; [left; reflexivity | right].
    apply lang_literal_concat in Hl as (tag & -> & Hl).
    apply plus_word_dot in Hl. eauto.
  - intros (major & minor & patch & rest & -> & Hmajor & Hminor & Hpatch & Hrest).
    apply plus_digits in Hmajor, Hminor, Hpatch.
    apply lang_literal_concat. eexists; split; [reflexivity|].
    apply lang_concat_iff. do 2 eexists; split; [reflexivity|]. split; [exact Hmajor|].
    apply lang_literal_concat. eexists; split; [reflexivity|].
    apply lang_concat_iff. do 2 eexists; split; [reflexivity|]. split; [exact Hminor|].
    apply lang_literal_concat. eexists; split; [reflexivity|].
    apply lang_concat_iff. do 2 eexists; split; [reflexivity|]. split; [exact Hpatch|].
    apply lang_quest_iff. destruct Hrest as [-> | (tag & -> & Htag)]; [left; reflexivity | right].
    apply lang_literal_concat. eexists; split; [reflexivity|].
    apply plus_word_dot; auto.
Qed.

Lemma list_ascii_of_string_inj s1 s2 :
  list_ascii_of_string s1 = list_ascii_of_string s2 -> s1 = s2.
Proof.
  intros E. rewrite <- (string_of_list_ascii_of_string s1),
    <- (string_of_list_ascii_of_string s2), E. reflexivity.
Qed.

(** The validator accepts exactly what the specification describes. *)
Lemma ValidateVersion_None_iff version :
  ValidateVersion version = None <-> acceptedBySpec version.
Proof.
  unfold ValidateVersion, MatchString, acceptedBySpec.
  destruct (matchBytes validVersionPattern (list_ascii_of_string version)) eqn:E;
    simpl.
  - apply matchBytes_lang, validVersionPattern_lang in E.
    split; [intros _ | reflexivity].
    destruct E as [E | E]; [left; auto | right; apply list_ascii_of_string_inj; auto].
  - split; [discriminate|]. intros Ha. exfalso.
    assert (Hl : lang validVersionPattern (list_ascii_of_string version)).
    { apply validVersionPattern_lang. destruct Ha as [Ha | ->]; auto. }
    apply matchBytes_lang in Hl. congruence.
Qed.

Lemma ValidateVersion_cases version :
  ValidateVersion version = None
  \/ ValidateVersion version = Some (ErrInvalidVersion version).
Proof.
  unfold ValidateVersion. destruct (MatchString _ _); simpl; auto.
Qed.

(** ** What an accepted version is made of *)

Lemma allOf_weaken al1 al2 s :
  (forall c, existsb (Ascii.eqb c) al1 = true -> existsb (Ascii.eqb c) al2 = true) ->
  allOf al1 s = true -> allOf al2 s = true.
Proof.
  intros Hsub. unfold allOf. rewrite !forallb_forall. auto.
Qed.

Lemma digit_in_alphabet c :
  existsb (Ascii.eqb c) digitChars = true ->
  existsb (Ascii.eqb c) versionAlphabet = true.
Proof. destruct c as [[] [] [] [] [] [] [] []]; vm_compute; auto. Qed.

Lemma word_dot_in_alphabet c :
  existsb (Ascii.eqb c) ("."%char :: wordChars) = true ->
  existsb (Ascii.eqb c) versionAlphabet = true.
Proof. destruct c as [[] [] [] [] [] [] [] []]; vm_compute; auto. Qed.

Lemma allOf_cons al c s :
  allOf al (c :: s) = existsb (Ascii.eqb c) al && allOf al s.
Proof. reflexivity. Qed.

Lemma allOf_app al s1 s2 : allOf al (s1 ++ s2) = allOf al s1 && allOf al s2.
Proof. apply forallb_app. Qed.

Lemma accepted_alphabet version :
  acceptedBySpec version ->
  allOf versionAlphabet (list_ascii_of_string version) = true.
Proof.
  intros [Hs | ->]; [|reflexivity].
  destruct Hs as (major & minor & patch & rest & -> & [_ Hmajor] & [_ Hminor]
                  & [_ Hpatch] & Hrest).
  apply (allOf_weaken _ _ _ digit_in_alphabet) in Hmajor, Hminor, Hpatch.
  assert (Hv : existsb (Ascii.eqb "v") versionAlphabet = true) by reflexivity.
  assert (Hdot : existsb (Ascii.eqb ".") versionAlphabet = true) by reflexivity.
  assert (Hhyphen : existsb (Ascii.eqb "-") versionAlphabet = true) by reflexivity.
  rewrite allOf_cons, allOf_app, allOf_cons, allOf_app, allOf_cons, allOf_app.
  rewrite Hv, Hdot, Hmajor, Hminor, Hpatch. simpl.
  destruct Hrest as [-> | (tag & -> & [_ Htag])]; [reflexivity|].
  apply (allOf_weaken _ _ _ word_dot_in_alphabet) in Htag.
  rewrite allOf_cons, Hhyphen, Htag. reflexivity.
Qed.

Lemma injection_byte_outside c :
  In c injectionBytes -> existsb (Ascii.eqb c) versionAlphabet = false.
Proof.
  unfold injectionBytes. simpl.
  intros [<- | [<- | [<- | [<- | [<- | []]]]]]; reflexivity.
Qed.

(** C2.  The validator returns no error for every string of the form
    v<digits>.<digits>.<digits>, optionally followed by a hyphen and a
    non-empty run of word characters and dots, and for the literal
    "latest"; it returns an error for every other string, among them the
    empty string, every string that does not start with v (and is not
    "latest"), and every string holding a slash, a question mark, a hash,
    a space or a NUL byte. *)
Theorem ValidateVersion_accepts_exactly :
  (forall version, acceptedBySpec version -> ValidateVersion version = None)
  /\ (forall version, ~ acceptedBySpec version ->
        ValidateVersion version = Some (ErrInvalidVersion version))
  /\ ValidateVersion "" = Some (ErrInvalidVersion "")
  /\ (forall version,
        (forall rest, version <> String "v" rest) -> version <> "latest" ->
        ValidateVersion version = Some (ErrInvalidVersion version))
  /\ (forall version c,
        In c (list_ascii_of_string version) -> In c injectionBytes ->
        ValidateVersion version = Some (ErrInvalidVersion version)).
Proof.
  assert (Hrej : forall version, ~ acceptedBySpec version ->
            ValidateVersion version = Some (ErrInvalidVersion version)).
  { intros version Hn. destruct (ValidateVersion_cases version) as [E | E]; auto.
    apply ValidateVersion_None_iff in E. contradiction. }
  split; [|split; [|split; [|split]]].
  - intros version. apply ValidateVersion_None_iff.
  - exact Hrej.
  - reflexivity.
  - intros version Hv Hl. apply Hrej. intros [Hs | E]; [|contradiction].
    destruct Hs as (major & minor & patch & rest & E & _).
    destruct version as [|a version]; simpl in E; [discriminate|].
    injection E as -> _. apply (Hv version). reflexivity.
  - intros version c Hin Hbad. apply Hrej. intros Ha.
    apply accepted_alphabet in Ha. unfold allOf in Ha.
    rewrite forallb_forall in Ha. specialize (Ha c Hin).
    rewrite (injection_byte_outside c Hbad) in Ha. discriminate.
Qed.

(** The table of [TestValidateVersion]. *)
Example ValidateVersion_test_table :
  map ValidateVersion ["v1.2.3"; "v1.0.0-rc.1"; "latest"] = [None; None; None]
  /\ (let rejected :=
        ["1.2.3"; ""; "../../../etc/passwd"; "v1.0.0?q=x"; "v1.0.0#frag";
         "v1.0.0/../../evil"; "v1.0.0 "; "https://evil.com";
         "v1.0.0" +:+ String "000"%char EmptyString] in
      map ValidateVersion rejected
      = map (fun v => Some (ErrInvalidVersion v)) rejected).
Proof. split; vm_compute; reflexivity. Qed.

(* ================================================================= *)
(** ** The URL builder pins the origin *)

Section BuildProperties.
Context `{NetURL}.

Lemma Build_rejects_invalid_version (b : URLBuilder) version err :
  ValidateVersion version = Some err -> Build b version = Err err.
Proof. intros E. unfold Build. rewrite E. reflexivity. Qed.

Lemma origin_differs_iff (parsed : URL) (b : URLBuilder) :
  negb (String.eqb (Scheme parsed) (Scheme (base b)))
  || negb (String.eqb (Host parsed) (Host (base b))) = true
  <-> Scheme parsed <> Scheme (base b) \/ Host parsed <> Host (base b).
Proof.
  rewrite orb_true_iff, !negb_true_iff, !String.eqb_neq. reflexivity.
Qed.

(** C1.  For a version the validator accepts, [Build] either fails or
    returns the text of the parsed concatenation, whose scheme and host
    equal the trusted base's; and whenever the parsed concatenation's
    scheme or host differs from the base's, [Build] returns the
    unexpected-origin error carrying the actual and the expected scheme
    and host, and [NewHTTPFetcher] returns that error instead of a
    fetcher, so no request can be issued. *)
Theorem Build_pins_origin (b : URLBuilder) (version : string) :
  ValidateVersion version = None ->
  (forall u, Build b version = Ok u ->
     exists parsed,
       url_Parse (rawURL b version) = Ok parsed
       /\ u = url_String parsed
       /\ Scheme parsed = Scheme (base b)
       /\ Host parsed = Host (base b))
  /\ (forall parsed,
        url_Parse (rawURL b version) = Ok parsed ->
        Scheme parsed <> Scheme (base b) \/ Host parsed <> Host (base b) ->
        Build b version
        = Err (ErrUnexpectedOrigin (Scheme parsed) (Host parsed)
                 (Scheme (base b)) (Host (base b)))
        /\ NewHTTPFetcher b version
           = Err (ErrWrap "building fetch URL"
                    (ErrUnexpectedOrigin (Scheme parsed) (Host parsed)
                       (Scheme (base b)) (Host (base b))))).
Proof.
  intros Hv. split.
  - intros u. unfold Build. rewrite Hv.
    destruct (url_Parse (rawURL b version)) as [parsed | err]; [|discriminate].
    destruct (negb (String.eqb (Scheme parsed) (Scheme (base b)))
              || negb (String.eqb (Host parsed) (Host (base b)))) eqn:E;
      [discriminate|].
    intros [= <-]. exists parsed.
    apply orb_false_iff in E as [E1 E2].
    apply negb_false_iff, String.eqb_eq in E1, E2. auto.
  - intros parsed Hp Hd. apply origin_differs_iff in Hd.
    assert (Hb : Build b version
                 = Err (ErrUnexpectedOrigin (Scheme parsed) (Host parsed)
                          (Scheme (base b)) (Host (base b)))).
    { unfold Build. rewrite Hv, Hp, Hd. reflexivity. }
    split; [exact Hb|]. unfold NewHTTPFetcher. rewrite Hb. reflexivity.
Qed.

End BuildProperties.

Lemma Build_pins_origin_witness :
  ValidateVersion "v1.2.3" = None
  /\ @Build refURL exampleBuilder "v1.2.3"
     = Ok "https://example.com/a/v1.2.3/b.yaml"
  /\ (forall u, @Build refURL exampleBuilder "v1.2.3" = Ok u ->
        exists parsed,
          refParse (@rawURL refURL exampleBuilder "v1.2.3") = Ok parsed
          /\ u = refString parsed
          /\ refScheme parsed = "https"
          /\ refHost parsed = "example.com").
Proof.
  split; [reflexivity|]. split; [reflexivity|].
  exact (proj1 (@Build_pins_origin refURL exampleBuilder "v1.2.3" eq_refl)).
Defined.

(** The cases of [TestURLBuilder_Build] and the regression case of the
    specification, over the reference instance: a crafted absolute URL is
    stopped by the validator, before the origin check. *)
Example Build_test_table :
  match @NewURLBuilder refURL lexiconBaseURL lexiconPathSuffix with
  | Ok b =>
      Build b "v0.19.1"
      = Ok "https://raw.githubusercontent.com/gemaraproj/gemara/v0.19.1/docs/lexicon.yaml"
      /\ Build b "latest"
         = Ok "https://raw.githubusercontent.com/gemaraproj/gemara/latest/docs/lexicon.yaml"
  | Err _ => False
  end
  /\ match @NewURLBuilder refURL schemaDocsBaseURL "" with
     | Ok b =>
         Build b "latest"
         = Ok "https://registry.cue.works/docs/github.com/gemaraproj/gemara@latest"
     | Err _ => False
     end
  /\ @Build refURL exampleBuilder "https://evil.example/x"
     = Err (ErrInvalidVersion "https://evil.example/x")
  /\ @Build refURL exampleBuilder "../../../etc/passwd"
     = Err (ErrInvalidVersion "../../../etc/passwd")
  /\ @Build refURL exampleBuilder "" = Err (ErrInvalidVersion "").
Proof. vm_compute. repeat split. Qed.

(** The table of [TestNewURLBuilder], over the reference instance. *)
Example NewURLBuilder_test_table :
  (exists b, @NewURLBuilder refURL
               "https://raw.githubusercontent.com/org/repo/" "/docs/file.yaml"
             = Ok b)
  /\ (exists b, @NewURLBuilder refURL "https://registry.example.com/pkg@" ""
                = Ok b)
  /\ @NewURLBuilder refURL "http://example.com/" "" = Err (ErrBaseNotHTTPS "http")
  /\ @NewURLBuilder refURL "example.com/path" "" = Err (ErrBaseNotHTTPS "")
  /\ @NewURLBuilder refURL "https:///path" "" = Err ErrBaseNoHost.
Proof. repeat split; eexists; reflexivity. Qed.

(** The origin check is live: on a base without a path the version
    lands in the host, and the builder refuses. *)
Example Build_origin_check_fires :
  @Build refURL bareHostBuilder "v1.2.3"
  = Err (ErrUnexpectedOrigin "https" "example.comv1.2.3" "https" "example.com").
Proof. reflexivity. Qed.

(* ================================================================= *)
(** ** The retrying transport: one turn of the loop *)

Lemma isRetryable_cases o :
  isRetryable o = (true, None)
  \/ isRetryable o = (false, None)
  \/ exists err, o = GotError err /\ asNetTimeout err = false
                 /\ isRetryable o = (false, Some err).
Proof.
  destruct o as [resp | err]; simpl.
  - destruct ((StatusCode resp =? StatusRequestTimeout)
              || (StatusCode resp =? StatusTooManyRequests)); auto.
    destruct ((StatusCode resp =? 0) || (StatusCode resp >=? 500)); auto.
  - destruct (asNetTimeout err) eqn:E; eauto 6.
Qed.

Lemma attempt_at_bound (t : retryTransport) attempt :
  maxRetry t <= attempt -> (attempt >=? maxRetry t) = true.
Proof. intros Hle. rewrite Z.geb_leb. apply Z.leb_le; auto. Qed.

Lemma attempt_below_bound (t : retryTransport) attempt :
  attempt < maxRetry t -> (attempt >=? maxRetry t) = false.
Proof. intros Hlt. rewrite Z.geb_leb. apply Z.leb_gt; auto. Qed.

Lemma attemptOnce_at_bound t env req attempt w :
  maxRetry t <= attempt ->
  attemptOnce t env req attempt w
  = Return (replyOf (transport env (sent w))) (sendOne w).
Proof.
  intros Hle. unfold attemptOnce. rewrite attempt_at_bound by auto. reflexivity.
Qed.

Lemma attemptOnce_terminal_error t env req attempt w err :
  transport env (sent w) = GotError err -> asNetTimeout err = false ->
  attemptOnce t env req attempt w = Return (None, Some err) (sendOne w).
Proof.
  intros Ho Ht. unfold attemptOnce. rewrite Ho. simpl. rewrite Ht.
  destruct (attempt >=? maxRetry t); reflexivity.
Qed.

Lemma attemptOnce_final_response t env req attempt w resp :
  transport env (sent w) = GotResponse resp ->
  isRetryable (GotResponse resp) = (false, None) ->
  attemptOnce t env req attempt w = Return (Some resp, None) (sendOne w).
Proof.
  intros Ho Hr. unfold attemptOnce. rewrite Ho, Hr.
  destruct (attempt >=? maxRetry t); reflexivity.
Qed.

Lemma attemptOnce_retry t env req req' attempt w :
  attempt < maxRetry t ->
  isRetryable (transport env (sent w)) = (true, None) ->
  rebuildBody req (sent w) = Some req' ->
  ctxDone env (sent w) = false ->
  exists w', attemptOnce t env req attempt w = Continue req' w'
             /\ sent w' = S (sent w)
             /\ length (slept w') = S (length (slept w)).
Proof.
  intros Hlt Hr Hb Hc. unfold attemptOnce.
  rewrite attempt_below_bound, Hr, Hb, Hc by auto.
  eexists. split; [reflexivity|].
  destruct (errOf (transport env (sent w))); simpl;
    rewrite length_app; simpl; split; auto; lia.
Qed.

Lemma attemptOnce_cancelled t env req req' attempt w :
  attempt < maxRetry t ->
  isRetryable (transport env (sent w)) = (true, None) ->
  rebuildBody req (sent w) = Some req' ->
  ctxDone env (sent w) = true ->
  exists w', attemptOnce t env req attempt w
             = Return (None, Some (ctxErr env)) w'
             /\ sent w' = S (sent w) /\ slept w' = slept w.
Proof.
  intros Hlt Hr Hb Hc. unfold attemptOnce.
  rewrite attempt_below_bound, Hr, Hb, Hc by auto.
  eexists. split; [reflexivity|].
  destruct (errOf (transport env (sent w))); split; reflexivity.
Qed.

Lemma attemptOnce_gives_up t env req attempt w :
  attempt < maxRetry t ->
  isRetryable (transport env (sent w)) = (true, None) ->
  rebuildBody req (sent w) = None ->
  attemptOnce t env req attempt w
  = Return (replyOf (transport env (sent w))) (sendOne w).
Proof.
  intros Hlt Hr Hb. unfold attemptOnce.
  rewrite attempt_below_bound, Hr, Hb by auto. reflexivity.
Qed.

(** Why a turn returned. *)
Lemma attemptOnce_Return_inv t env req attempt w r w' :
  attemptOnce t env req attempt w = Return r w' ->
  sent w' = S (sent w)
  /\ (maxRetry t <= attempt
      \/ isRetryable (transport env (sent w)) <> (true, None)
      \/ (rebuildBody req (sent w) = None
          /\ r = replyOf (transport env (sent w)))
      \/ (ctxDone env (sent w) = true /\ r = (None, Some (ctxErr env)))).
Proof.
  unfold attemptOnce.
  destruct (Z.leb_spec (maxRetry t) attempt) as [Hle | Hlt].
  - rewrite attempt_at_bound by auto. intros [= <- <-]. auto.
  - rewrite attempt_below_bound by auto.
    destruct (isRetryable_cases (transport env (sent w)))
      as [Hr | [Hr | (err & Ho & Ht & Hr)]]; rewrite Hr.
    + destruct (rebuildBody req (sent w)) as [req'|] eqn:Hb.
      * destruct (ctxDone env (sent w)) eqn:Hc; [|discriminate].
        intros [= <- <-]. split; [|auto 6].
        destruct (errOf (transport env (sent w))); reflexivity.
      * intros [= <- <-]. auto 6.
    + intros [= <- <-]. split; [reflexivity|]. right; left. congruence.
    + intros [= <- <-]. split.
      * destruct (errOf (transport env (sent w))); reflexivity.
      * right; left. congruence.
Qed.

(** When a turn goes on. *)
Lemma attemptOnce_Continue_inv t env req attempt w req' w' :
  attemptOnce t env req attempt w = Continue req' w' ->
  sent w' = S (sent w) /\ attempt < maxRetry t
  /\ rebuildBody req (sent w) = Some req'.
Proof.
  unfold attemptOnce.
  destruct (Z.leb_spec (maxRetry t) attempt) as [Hle | Hlt].
  - rewrite attempt_at_bound by auto. discriminate.
  - rewrite attempt_below_bound by auto.
    destruct (isRetryable_cases (transport env (sent w)))
      as [Hr | [Hr | (err & Ho & Ht & Hr)]]; rewrite Hr; try discriminate.
    destruct (rebuildBody req (sent w)) as [req1|] eqn:Hb; [|discriminate].
    destruct (ctxDone env (sent w)) eqn:Hc; [discriminate|].
    intros [= <- <-]. repeat split; auto.
    destruct (errOf (transport env (sent w))); reflexivity.
Qed.

(** Rebuilding the body keeps [GetBody], so what can be replayed stays
    so. *)
Lemma rebuildBody_next req k req' :
  rebuildBody req k = Some req' ->
  forall j, rebuildBody req' j = None <-> rebuildBody req j = None.
Proof.
  unfold rebuildBody. destruct (reqBody req) as [b|] eqn:Eb.
  - destruct (GetBody req) as [get|] eqn:Eg; [|discriminate].
    destruct (get k) as [body | e]; [|discriminate].
    intros [= <-] j. simpl. reflexivity.
  - intros [= <-] j. rewrite Eb. reflexivity.
Qed.

Lemma canReplay_next req k req' :
  rebuildBody req k = Some req' -> canReplay req -> canReplay req'.
Proof.
  intros Hb Hc j Hn. apply (Hc j).
  exact (proj1 (rebuildBody_next req k req' Hb j) Hn).
Qed.

Lemma canReplay_getRequest : canReplay getRequest.
Proof. intros k. discriminate. Qed.

(* ================================================================= *)
(** ** The retrying transport: the loop *)

(** The loop always returns: it runs out of attempts before it runs out
    of fuel. *)
Lemma roundTripLoop_total t env :
  forall fuel req attempt w,
    maxRetry t - attempt <= Z.of_nat fuel ->
    exists r w', roundTripLoop (S fuel) t env req attempt w = Some (r, w').
Proof.
  induction fuel as [|fuel IH]; intros req attempt w Hf.
  - simpl. rewrite attemptOnce_at_bound by lia. eauto.
  - change (roundTripLoop (S (S fuel)) t env req attempt w)
      with (match attemptOnce t env req attempt w with
            | Return r w' => Some (r, w')
            | Continue req' w' =>
                roundTripLoop (S fuel) t env req' (attempt + 1) w'
            end).
    destruct (attemptOnce t env req attempt w) as [r w' | req' w'] eqn:E.
    + eauto.
    + apply attemptOnce_Continue_inv in E as (_ & Hlt & _).
      apply IH. lia.
Qed.

Theorem RoundTrip_total t env req :
  exists r w, RoundTrip t env req = Some (r, w).
Proof. apply roundTripLoop_total. lia. Qed.

(** [j] retried attempts take the loop [j] turns further, with a request
    that can be replayed exactly when the first one can. *)
Lemma roundTripLoop_retries t env :
  forall (j fuel : nat) req attempt w,
    canReplay req ->
    ((0 < j)%nat -> attempt + Z.of_nat j <= maxRetry t) ->
    retriedFrom env (sent w) j ->
    exists req' w',
      canReplay req' /\ sent w' = (sent w + j)%nat
      /\ length (slept w') = (length (slept w) + j)%nat
      /\ (forall i, rebuildBody req' i = None <-> rebuildBody req i = None)
      /\ roundTripLoop (j + fuel) t env req attempt w
         = roundTripLoop fuel t env req' (attempt + Z.of_nat j) w'.
Proof.
  induction j as [|j IH]; intros fuel req attempt w Hc Hle Hr.
  - exists req, w. rewrite Z.add_0_r, !Nat.add_0_r. repeat split; auto.
  - destruct (Hr (sent w)) as [Hret Hdone]; [lia|].
    destruct (rebuildBody req (sent w)) as [req1|] eqn:Hb;
      [|exfalso; exact (Hc _ Hb)].
    destruct (attemptOnce_retry t env req req1 attempt w)
      as (w1 & E & Hs & Hsl); auto; [lia|].
    destruct (IH fuel req1 (attempt + 1) w1)
      as (req' & w' & Hc' & Hs' & Hsl' & Hb' & El).
    + eapply canReplay_next; eauto.
    + lia.
    + intros i Hi. apply Hr. lia.
    + exists req', w'. split; [auto|]. split; [lia|]. split; [lia|]. split.
      * intros i. rewrite Hb'. apply (rebuildBody_next _ _ _ Hb).
      * change (S j + fuel)%nat with (S (j + fuel)). simpl. rewrite E, El.
        f_equal. lia.
Qed.

(** After [k] retried attempts, [RoundTrip] is at its turn number [k],
    which it enters with [k] requests sent and [k] waits slept. *)
Lemma RoundTrip_after_retries t env req (k : nat) :
  ((0 < k)%nat -> Z.of_nat k <= maxRetry t) ->
  canReplay req -> retriedFrom env 0 k ->
  exists req' w',
    canReplay req' /\ sent w' = k /\ length (slept w') = k
    /\ (forall j, rebuildBody req' j = None <-> rebuildBody req j = None)
    /\ RoundTrip t env req
       = roundTripLoop (S (Z.to_nat (maxRetry t) - k)) t env req' (Z.of_nat k) w'.
Proof.
  intros Hk Hc Hr. unfold RoundTrip.
  destruct (roundTripLoop_retries t env k (S (Z.to_nat (maxRetry t) - k))
              req 0 world0)
    as (req' & w' & Hc' & Hs' & Hsl' & Hb' & El); auto.
  exists req', w'. repeat split; auto; try apply Hb'.
  replace (S (Z.to_nat (maxRetry t)))
    with (k + S (Z.to_nat (maxRetry t) - k))%nat by lia.
  rewrite El. reflexivity.
Qed.

(** If turn number [k] returns [r] whatever request and world it is
    entered with, then so does [RoundTrip], having sent [k + 1]
    requests. *)
Lemma RoundTrip_returns_at t env req (k : nat) r (Q : netWorld -> Prop) :
  ((0 < k)%nat -> Z.of_nat k <= maxRetry t) ->
  canReplay req -> retriedFrom env 0 k ->
  (forall req' w', canReplay req' -> sent w' = k -> length (slept w') = k ->
     exists w'', attemptOnce t env req' (Z.of_nat k) w' = Return r w''
                 /\ Q w'') ->
  exists w, RoundTrip t env req = Some (r, w) /\ Q w.
Proof.
  intros Hk Hc Hr Hturn.
  destruct (RoundTrip_after_retries t env req k Hk Hc Hr)
    as (req' & w' & Hc' & Hs' & Hsl' & _ & E).
  destruct (Hturn req' w' Hc' Hs' Hsl') as (w'' & Et & HQ).
  exists w''. split; [|exact HQ]. rewrite E. simpl. rewrite Et. reflexivity.
Qed.

(** A return before the attempts are used up, on a retryable outcome,
    has one of two causes. *)
Lemma roundTripLoop_early t env :
  forall fuel req attempt w r w',
    roundTripLoop fuel t env req attempt w = Some (r, w') ->
    Z.of_nat (sent w) = attempt ->
    (sent w < sent w')%nat
    /\ (Z.of_nat (sent w') <= maxRetry t ->
        isRetryable (transport env (pred (sent w'))) = (true, None) ->
        (ctxDone env (pred (sent w')) = true
         /\ r = (None, Some (ctxErr env)))
        \/ (rebuildBody req (pred (sent w')) = None
            /\ r = replyOf (transport env (pred (sent w'))))).
Proof.
  induction fuel as [|fuel IH]; intros req attempt w r w' E Ha; [discriminate|].
  simpl in E.
  destruct (attemptOnce t env req attempt w) as [r0 w0 | req1 w1] eqn:Et.
  - injection E as <- <-.
    apply attemptOnce_Return_inv in Et as (Hs & Hwhy).
    split; [lia|]. rewrite Hs. simpl. intros Hle Hret.
    destruct Hwhy as [Hb | [Hn | [Hg | Hc]]]; auto; [lia | contradiction].
  - apply attemptOnce_Continue_inv in Et as (Hs & Hlt & Hb).
    destruct (IH req1 (attempt + 1) w1 r w' E) as (Hlt' & Hwhy); [lia|].
    split; [lia|]. intros Hle Hret.
    destruct (Hwhy Hle Hret) as [Hc | [Hg Hr]]; [left; auto | right].
    split; [|exact Hr]. apply (rebuildBody_next _ _ _ Hb). exact Hg.
Qed.

(* ================================================================= *)
(** ** The retrying transport: exhaustion, classification, cancellation *)

(** C3 (as amended).  With [maxRetry = N >= 0], a request that can be
    replayed, the first [N] attempts retryable and none of the waits
    after them cancelled, [RoundTrip] performs exactly [N + 1] attempts
    and returns what the last attempt gave, unchanged: the last response
    with a nil error when the last attempt gave a response.  It builds no
    error of its own. *)
Theorem RoundTrip_exhaustion t env req :
  0 <= maxRetry t -> canReplay req ->
  retriedFrom env 0 (Z.to_nat (maxRetry t)) ->
  exists w,
    RoundTrip t env req
    = Some (replyOf (transport env (Z.to_nat (maxRetry t))), w)
    /\ Z.of_nat (sent w) = maxRetry t + 1
    /\ (forall resp,
          transport env (Z.to_nat (maxRetry t)) = GotResponse resp ->
          RoundTrip t env req = Some ((Some resp, None), w)).
Proof.
  intros Hn Hc Hr.
  destruct (RoundTrip_returns_at t env req (Z.to_nat (maxRetry t))
              (replyOf (transport env (Z.to_nat (maxRetry t))))
              (fun w => Z.of_nat (sent w) = maxRetry t + 1))
    as (w & E & Hs); auto; [lia | |].
  - intros req' w' _ Hs _. exists (sendOne w'). split.
    + rewrite attemptOnce_at_bound by lia. rewrite Hs. reflexivity.
    + simpl. lia.
  - exists w. split; [exact E|]. split; [exact Hs|].
    intros resp Ho. rewrite E, Ho. reflexivity.
Qed.

(** [TestRetryTransport_ExhaustsRetries]: a server that always answers
    503, [maxRetry = 2]. *)
Lemma RoundTrip_exhaustion_witness :
  exists w,
    RoundTrip {| maxRetry := 2; wait := 1000000 |}
      (always (GotResponse (statusOnly 503))) getRequest
    = Some ((Some (statusOnly 503), None), w)
    /\ Z.of_nat (sent w) = 3.
Proof.
  destruct (RoundTrip_exhaustion {| maxRetry := 2; wait := 1000000 |}
              (always (GotResponse (statusOnly 503))) getRequest)
    as (w & E & Hs & Hresp).
  - simpl. lia.
  - exact canReplay_getRequest.
  - intros i _. split; reflexivity.
  - exists w. split; [apply Hresp; reflexivity | exact Hs].
Defined.

(** C3 as stated fails when the retryable outcomes are timeouts: every
    attempt is retryable, three requests go out, and what comes back is
    a nil response with the last timeout error. *)
Lemma RoundTrip_timeouts_counterexample :
  (forall k, isRetryable (transport (always (GotError timedOut)) k)
             = (true, None))
  /\ RoundTrip {| maxRetry := 2; wait := 1000000 |}
       (always (GotError timedOut)) getRequest
     = Some ((None, Some timedOut),
             {| sent := 3; closed := 0; slept := [1000000; 1000000] |})
  /\ ~ (exists resp w,
          RoundTrip {| maxRetry := 2; wait := 1000000 |}
            (always (GotError timedOut)) getRequest
          = Some ((Some resp, None), w)).
Proof.
  split; [intros k; reflexivity|]. split; [reflexivity|].
  intros (resp & w & E). vm_compute in E. discriminate.
Qed.

(** The other tests of the transport: no retry on 200; 503 twice and
    then 200 with [maxRetry = 5]. *)
Example RoundTrip_test_table :
  RoundTrip {| maxRetry := 5; wait := 1000000 |}
    (always (GotResponse (statusOnly 200))) getRequest
  = Some ((Some (statusOnly 200), None),
          {| sent := 1; closed := 0; slept := [] |})
  /\ RoundTrip {| maxRetry := 5; wait := 1000000 |}
       {| transport := fun k => GotResponse
                          (statusOnly (if (k <? 2)%nat then 503 else 200));
          ctxDone := fun _ => false; ctxErr := ErrContextCanceled |}
       getRequest
     = Some ((Some (statusOnly 200), None),
             {| sent := 3; closed := 2; slept := [1000000; 1000000] |}).
Proof. split; reflexivity. Qed.

(** C4.  A transport error that is a timeout is retryable; any other
    transport error is not, and is returned at once with a nil response,
    at whichever attempt it occurs.  Statuses 408, 429, 0 and every
    status from 500 on are retryable; every other status is not, and the
    response is returned as it is, with a nil error. *)
Theorem outcome_classification :
  (forall err, asNetTimeout err = true ->
     isRetryable (GotError err) = (true, None))
  /\ (forall err, asNetTimeout err = false ->
        isRetryable (GotError err) = (false, Some err)
        /\ (forall t env req attempt w,
              transport env (sent w) = GotError err ->
              attemptOnce t env req attempt w
              = Return (None, Some err) (sendOne w))
        /\ (forall t env req (k : nat),
              ((0 < k)%nat -> Z.of_nat k <= maxRetry t) ->
              canReplay req -> retriedFrom env 0 k ->
              transport env k = GotError err ->
              exists w, RoundTrip t env req = Some ((None, Some err), w)
                        /\ sent w = S k))
  /\ (forall resp,
        StatusCode resp = 408 \/ StatusCode resp = 429
        \/ StatusCode resp = 0 \/ 500 <= StatusCode resp ->
        isRetryable (GotResponse resp) = (true, None))
  /\ (forall resp,
        StatusCode resp <> 408 -> StatusCode resp <> 429 ->
        StatusCode resp <> 0 -> StatusCode resp < 500 ->
        isRetryable (GotResponse resp) = (false, None)
        /\ (forall t env req attempt w,
              transport env (sent w) = GotResponse resp ->
              attemptOnce t env req attempt w
              = Return (Some resp, None) (sendOne w))
        /\ (forall t env req (k : nat),
              ((0 < k)%nat -> Z.of_nat k <= maxRetry t) ->
              canReplay req -> retriedFrom env 0 k ->
              transport env k = GotResponse resp ->
              exists w, RoundTrip t env req = Some ((Some resp, None), w)
                        /\ sent w = S k)).
Proof.
  split; [|split; [|split]].
  - intros err Ht. simpl. rewrite Ht. reflexivity.
  - intros err Ht. split; [simpl; rewrite Ht; reflexivity|]. split.
    + intros t env req attempt w Ho.
      apply attemptOnce_terminal_error; auto.
    + intros t env req k Hk Hc Hr Ho.
      apply (RoundTrip_returns_at t env req k (None, Some err)
               (fun w => sent w = S k)); auto.
      intros req' w' _ Hs _. exists (sendOne w'). split.
      * apply attemptOnce_terminal_error; auto. rewrite Hs. exact Ho.
      * simpl. rewrite Hs. reflexivity.
  - intros resp Hs. unfold isRetryable, StatusRequestTimeout,
      StatusTooManyRequests.
    destruct (Z.eqb_spec (StatusCode resp) 408); [reflexivity|].
    destruct (Z.eqb_spec (StatusCode resp) 429); [reflexivity|]. simpl.
    destruct (Z.eqb_spec (StatusCode resp) 0); [reflexivity|]. simpl.
    rewrite Z.geb_leb.
    destruct (Z.leb_spec 500 (StatusCode resp)); [reflexivity | lia].
  - intros resp H408 H429 H0 H500.
    assert (Hr : isRetryable (GotResponse resp) = (false, None)).
    { unfold isRetryable, StatusRequestTimeout, StatusTooManyRequests.
      destruct (Z.eqb_spec (StatusCode resp) 408); [contradiction|].
      destruct (Z.eqb_spec (StatusCode resp) 429); [contradiction|]. simpl.
      destruct (Z.eqb_spec (StatusCode resp) 0); [contradiction|]. simpl.
      rewrite Z.geb_leb.
      destruct (Z.leb_spec 500 (StatusCode resp)); [lia | reflexivity]. }
    split; [exact Hr|]. split.
    + intros t env req attempt w Ho.
      apply attemptOnce_final_response; auto.
    + intros t env req k Hk Hc Hret Ho.
      apply (RoundTrip_returns_at t env req k (Some resp, None)
               (fun w => sent w = S k)); auto.
      intros req' w' _ Hs _. exists (sendOne w'). split.
      * apply attemptOnce_final_response; auto. rewrite Hs. exact Ho.
      * simpl. rewrite Hs. reflexivity.
Qed.

(** The table of [TestRetryAfter], and a value past [int64]: the parse
    saturates, the product wraps to a negative duration, and the fixed
    wait is used. *)
Example retryAfter_test_table :
  let withHeader v :=
    Some {| StatusCode := 429; Header := {[ "Retry-After" := [v] ]};
            Body := emptyBody; RequestURL := "" |} in
  retryAfter (withHeader "5") = 5 * Second
  /\ retryAfter (Some (statusOnly 429)) = 0
  /\ retryAfter None = 0
  /\ retryAfter (withHeader "not-a-number") = 0
  /\ retryAfter (withHeader "99999999999999999999") = - Second.
Proof. vm_compute. repeat split. Qed.

(** The table of [TestIsRetryable]. *)
Example isRetryable_test_table :
  map (fun code => isRetryable (GotResponse (statusOnly code)))
    [500; 502; 503; 429; 408; 404; 200; 401]
  = [(true, None); (true, None); (true, None); (true, None); (true, None);
     (false, None); (false, None); (false, None)]
  /\ isRetryable (GotError (ErrNet true "lookup: i/o timeout")) = (true, None)
  /\ isRetryable (GotError (ErrPlain "unexpected EOF"))
     = (false, Some (ErrPlain "unexpected EOF")).
Proof. repeat split. Qed.

(** C5 (as amended).  If the context is cancelled during the wait that
    follows a retryable attempt, [RoundTrip] returns at once, with a nil
    response and the context's error: no further request goes out and the
    cancelled wait is not slept.  When [RoundTrip] returns on a retryable
    outcome before its attempts are used up, then either the wait was
    cancelled, or the request had a body that could not be rebuilt (in
    which case the outcome is returned as it is); for a request without a
    body, cancellation is the only cause. *)
Theorem RoundTrip_cancellation t env req :
  (forall k : nat,
     Z.of_nat k < maxRetry t -> canReplay req -> retriedFrom env 0 k ->
     isRetryable (transport env k) = (true, None) ->
     ctxDone env k = true ->
     exists w, RoundTrip t env req = Some ((None, Some (ctxErr env)), w)
               /\ sent w = S k /\ length (slept w) = k)
  /\ (forall r w,
        RoundTrip t env req = Some (r, w) ->
        Z.of_nat (sent w) <= maxRetry t ->
        isRetryable (transport env (pred (sent w))) = (true, None) ->
        (ctxDone env (pred (sent w)) = true
         /\ r = (None, Some (ctxErr env)))
        \/ (rebuildBody req (pred (sent w)) = None
            /\ r = replyOf (transport env (pred (sent w)))))
  /\ (reqBody req = None ->
      forall r w,
        RoundTrip t env req = Some (r, w) ->
        Z.of_nat (sent w) <= maxRetry t ->
        isRetryable (transport env (pred (sent w))) = (true, None) ->
        ctxDone env (pred (sent w)) = true
        /\ r = (None, Some (ctxErr env))).
Proof.
  assert (Hearly : forall r w,
            RoundTrip t env req = Some (r, w) ->
            Z.of_nat (sent w) <= maxRetry t ->
            isRetryable (transport env (pred (sent w))) = (true, None) ->
            (ctxDone env (pred (sent w)) = true
             /\ r = (None, Some (ctxErr env)))
            \/ (rebuildBody req (pred (sent w)) = None
                /\ r = replyOf (transport env (pred (sent w))))).
  { intros r w E. unfold RoundTrip in E.
    apply roundTripLoop_early in E as (_ & Hwhy); auto. }
  split; [|split].
  - intros k Hk Hc Hr Hret Hdone.
    apply (RoundTrip_returns_at t env req k (None, Some (ctxErr env))
             (fun w => sent w = S k /\ length (slept w) = k)); auto; [lia|].
    intros req' w' Hc' Hs Hsl.
    destruct (rebuildBody req' (sent w')) as [req1|] eqn:Hb;
      [|exfalso; exact (Hc' _ Hb)].
    destruct (attemptOnce_cancelled t env req' req1 (Z.of_nat k) w')
      as (w'' & E & Hs' & Hsl'); auto; try (rewrite Hs; auto).
    exists w''. split; [exact E|]. split; congruence.
  - exact Hearly.
  - intros Hnobody r w E Hle Hret.
    destruct (Hearly r w E Hle Hret) as [Hc | [Hg _]]; [exact Hc|].
    unfold rebuildBody in Hg. rewrite Hnobody in Hg. discriminate.
Qed.

(** [TestRetryTransport_RespectsContextCancellation]: the server answers
    503, the wait is ten seconds, the caller cancels during the first
    wait. *)
Example RoundTrip_cancelled_example :
  RoundTrip {| maxRetry := 5; wait := 10 * Second |}
    cancelledAtFirstWait getRequest
  = Some ((None, Some ErrContextCanceled),
          {| sent := 1; closed := 1; slept := [] |}).
Proof. reflexivity. Qed.

(** C5 as stated fails for a request whose body cannot be sent again:
    the server answers 503, which is retryable, three retries are left
    and nothing is cancelled, yet [RoundTrip] returns the 503 after one
    attempt. *)
Lemma RoundTrip_one_shot_body_counterexample :
  RoundTrip newRetryTransport (always (GotResponse (statusOnly 503)))
    oneShotRequest
  = Some ((Some (statusOnly 503), None),
          {| sent := 1; closed := 0; slept := [] |})
  /\ isRetryable (transport (always (GotResponse (statusOnly 503))) 0)
     = (true, None)
  /\ 1 < maxRetry newRetryTransport + 1
  /\ (forall k, ctxDone (always (GotResponse (statusOnly 503))) k = false).
Proof. repeat split. Qed.

(* ================================================================= *)
(** ** The bounded fetcher *)

Lemma io_LimitReader_length r n :
  0 <= n -> Z.of_nat (length (bodyData (io_LimitReader r n))) <= n.
Proof.
  intros Hn. unfold io_LimitReader. cbv zeta. cbn [bodyData].
  pose proof (firstn_le_length (Z.to_nat n) (bodyData r)). lia.
Qed.

Lemma limitReader_length r n :
  Z.of_nat (length (bodyData (limitReader r n)))
  <= (if n <=? 0 then defaultMaxResponseBytes else n).
Proof.
  unfold limitReader. apply io_LimitReader_length.
  destruct (Z.leb_spec n 0); [unfold defaultMaxResponseBytes|]; lia.
Qed.

Lemma effectiveCap_pos f : 0 < effectiveCap f.
Proof.
  unfold effectiveCap, defaultMaxResponseBytes.
  destruct (Z.leb_spec (MaxResponseBytes f) 0); lia.
Qed.

Lemma seesEnd_iff f r :
  seesEnd f r = true
  <-> Z.of_nat (length (bodyData r)) < effectiveCap f
      \/ (Z.of_nat (length (bodyData r)) = effectiveCap f
          /\ endWithData r = true).
Proof.
  unfold seesEnd. cbv zeta.
  rewrite orb_true_iff, andb_true_iff, Z.ltb_lt, Z.eqb_eq. reflexivity.
Qed.

(** What [io.ReadAll] gets from the limited body: the bytes up to the
    cap, and the end of the body when the read gets to it. *)
Lemma io_ReadAll_limitReader f r :
  io_ReadAll (limitReader r (MaxResponseBytes f))
  = (firstn (Z.to_nat (effectiveCap f)) (bodyData r),
     if seesEnd f r then bodyErr r else None).
Proof.
  pose proof (effectiveCap_pos f) as Hpos.
  unfold io_ReadAll, limitReader, io_LimitReader, seesEnd. cbv zeta.
  cbn [bodyData bodyErr]. fold (effectiveCap f).
  destruct (Z.ltb_spec 0 (effectiveCap f)); [reflexivity | lia].
Qed.

Lemma HTTPFetcher_Fetch_Ok_200 f env body src :
  HTTPFetcher_Fetch f env = Ok (body, src) ->
  newRequestErr env (fetchURL f) = None
  /\ exists resp, clientDo env (fetchURL f) = GotResponse resp
                  /\ StatusCode resp = 200.
Proof.
  unfold HTTPFetcher_Fetch.
  destruct (newRequestErr env (fetchURL f)); [discriminate|].
  destruct (clientDo env (fetchURL f)) as [resp | err]; [|discriminate].
  unfold StatusOK.
  destruct (Z.eqb_spec (StatusCode resp) 200) as [Hs | Hs]; [|discriminate].
  eauto.
Qed.

(** [Fetch] on a response with status 200. *)
Lemma HTTPFetcher_Fetch_200 f env resp :
  newRequestErr env (fetchURL f) = None ->
  clientDo env (fetchURL f) = GotResponse resp ->
  StatusCode resp = 200 ->
  HTTPFetcher_Fetch f env
  = match (if seesEnd f (Body resp) then bodyErr (Body resp) else None) with
    | Some err => Err (ErrWrap "reading response body" err)
    | None => Ok (firstn (Z.to_nat (effectiveCap f)) (bodyData (Body resp)),
                  fetchURL f)
    end.
Proof.
  intros Hn Hd Hs. unfold HTTPFetcher_Fetch.
  rewrite Hn, Hd, Hs, io_ReadAll_limitReader. reflexivity.
Qed.

(** C10.  A successful [Fetch] of an [HTTPFetcher] whose
    [MaxResponseBytes] is zero or negative returns the first 4 MiB of the
    body, so at most 4 MiB and the whole of a body that is no longer: the
    zero override falls back to the default cap, it means neither no
    limit nor an empty read.  With a positive [MaxResponseBytes = n] it
    returns the first [n] bytes of the body, so at most [n]. *)
Theorem HTTPFetcher_Fetch_bounded (f : HTTPFetcher) (env : httpEnv) body src :
  HTTPFetcher_Fetch f env = Ok (body, src) ->
  exists resp,
    clientDo env (fetchURL f) = GotResponse resp
    /\ (MaxResponseBytes f <= 0 ->
        body = firstn (Z.to_nat (4 * 1024 * 1024)) (bodyData (Body resp))
        /\ Z.of_nat (length body) <= 4 * 1024 * 1024
        /\ (Z.of_nat (length (bodyData (Body resp))) <= 4 * 1024 * 1024 ->
            body = bodyData (Body resp)))
    /\ (0 < MaxResponseBytes f ->
        body = firstn (Z.to_nat (MaxResponseBytes f)) (bodyData (Body resp))
        /\ Z.of_nat (length body) <= MaxResponseBytes f).
Proof.
  intros Hf.
  destruct (HTTPFetcher_Fetch_Ok_200 f env body src Hf) as (Hn & resp & Hd & Hs).
  rewrite (HTTPFetcher_Fetch_200 f env resp Hn Hd Hs) in Hf.
  destruct (if seesEnd f (Body resp) then bodyErr (Body resp) else None);
    [discriminate|].
  injection Hf as <- _.
  exists resp. split; [exact Hd|].
  pose proof (firstn_le_length (Z.to_nat (effectiveCap f))
                (bodyData (Body resp))) as Hlen.
  unfold effectiveCap, defaultMaxResponseBytes in *.
  destruct (Z.leb_spec (MaxResponseBytes f) 0) as [Hle | Hgt].
  - split; [|lia]. intros _. split; [reflexivity|]. split; [lia|].
    intros Hfit. apply firstn_all2. lia.
  - split; [lia|]. intros _. split; [reflexivity | lia].
Qed.

Lemma HTTPFetcher_Fetch_bounded_witness :
  (HTTPFetcher_Fetch uncappedFetcher servesFiveBytes
   = Ok (fiveBytes, "https://example.com/a/v1.2.3/b.yaml")
   /\ Z.of_nat (length fiveBytes) <= 4 * 1024 * 1024)
  /\ (HTTPFetcher_Fetch negativeCapFetcher servesFiveBytes
      = Ok (fiveBytes, "https://example.com/a/v1.2.3/b.yaml")
      /\ Z.of_nat (length fiveBytes) <= 4 * 1024 * 1024)
  /\ (HTTPFetcher_Fetch cappedFetcher servesFiveBytes
      = Ok ([Byte.x68; Byte.x65; Byte.x6c],
            "https://example.com/a/v1.2.3/b.yaml")
      /\ Z.of_nat (length [Byte.x68; Byte.x65; Byte.x6c]) <= 3).
Proof.
  split; [|split].
  - split; [reflexivity|].
    destruct (HTTPFetcher_Fetch_bounded uncappedFetcher servesFiveBytes
                fiveBytes "https://example.com/a/v1.2.3/b.yaml" eq_refl)
      as (resp & _ & Hzero & _).
    apply Hzero. simpl. lia.
  - split; [reflexivity|].
    destruct (HTTPFetcher_Fetch_bounded negativeCapFetcher servesFiveBytes
                fiveBytes "https://example.com/a/v1.2.3/b.yaml" eq_refl)
      as (resp & _ & Hneg & _).
    apply Hneg. simpl. lia.
  - split; [reflexivity|].
    destruct (HTTPFetcher_Fetch_bounded cappedFetcher servesFiveBytes
                [Byte.x68; Byte.x65; Byte.x6c]
                "https://example.com/a/v1.2.3/b.yaml" eq_refl)
      as (resp & _ & _ & Hpos).
    apply Hpos. simpl. lia.
Defined.

(** A fetcher built by [NewHTTPFetcher] has the zero override, hence the
    default cap; a body below the cap comes back whole, and a status
    other than 200 is an error naming method, URL and status. *)
Example HTTPFetcher_Fetch_examples :
  HTTPFetcher_Fetch
    {| fetchURL := "https://example.com/x"; MaxResponseBytes := 0 |}
    servesFiveBytes
  = Ok (fiveBytes, "https://example.com/x")
  /\ HTTPFetcher_Fetch
       {| fetchURL := "https://example.com/x"; MaxResponseBytes := 0 |}
       {| newRequestErr := fun _ => None;
          clientDo := fun _ => GotResponse (statusOnly 503) |}
     = Err (ErrStatus "GET" "" 503).
Proof. split; reflexivity. Qed.

(* ================================================================= *)
(** ** The TTL cache and the cached fetcher *)

Lemma Cache_Get_cache c now key : snd (Cache_Get c now key) = c.
Proof.
  unfold Cache_Get. destruct (entries c !! key) as [e|]; [|reflexivity].
  destruct (now - insertedAt e <? ttl c); reflexivity.
Qed.

Lemma Cache_Get_found_iff c now key :
  snd (fst (Cache_Get c now key)) = true
  <-> exists e, entries c !! key = Some e /\ now - insertedAt e < ttl c.
Proof.
  unfold Cache_Get. destruct (entries c !! key) as [e|].
  - destruct (Z.ltb_spec (now - insertedAt e) (ttl c)); simpl.
    + split; [eauto | reflexivity].
    + split; [discriminate|]. intros (e' & [= <-] & Hlt). lia.
  - simpl. split; [discriminate|]. intros (e & He & _). discriminate.
Qed.

(** C8.  [get key] reports found exactly when an entry exists for [key]
    whose age is strictly less than the TTL, and then returns that
    entry's payload and source; it never changes the cache, so an expired
    entry reports not found and stays stored; [set key] overwrites the
    entry for [key] with the given payload and the current time and
    leaves every other key alone.  Hence a [get] right after a [set]
    finds the payload (the TTL being positive), and a [get] once the TTL
    has elapsed does not, the entry still being there. *)
Theorem Cache_Get_Set_spec (c : Cache) (now : Z) (key : string) :
  (snd (fst (Cache_Get c now key)) = true
   <-> exists e, entries c !! key = Some e /\ now - insertedAt e < ttl c)
  /\ (forall e, entries c !! key = Some e -> now - insertedAt e < ttl c ->
        fst (Cache_Get c now key) = (payload e, sourceID e, true))
  /\ snd (Cache_Get c now key) = c
  /\ (forall e, entries c !! key = Some e -> ttl c <= now - insertedAt e ->
        snd (fst (Cache_Get c now key)) = false
        /\ entries (snd (Cache_Get c now key)) !! key = Some e)
  /\ (forall data src,
        entries (Cache_Set c now key data src) !! key
        = Some {| payload := data; sourceID := src; insertedAt := now |}
        /\ ttl (Cache_Set c now key data src) = ttl c
        /\ (forall other, other <> key ->
              entries (Cache_Set c now key data src) !! other
              = entries c !! other)
        /\ (0 < ttl c ->
            fst (Cache_Get (Cache_Set c now key data src) now key)
            = (data, src, true))
        /\ (forall later, ttl c <= later - now ->
              snd (fst (Cache_Get (Cache_Set c now key data src) later key))
              = false
              /\ entries (snd (Cache_Get (Cache_Set c now key data src)
                                 later key)) !! key
                 = Some {| payload := data; sourceID := src;
                           insertedAt := now |})).
Proof.
  split; [apply Cache_Get_found_iff|]. split; [|split; [|split]].
  - intros e He Hlt. unfold Cache_Get. rewrite He.
    destruct (Z.ltb_spec (now - insertedAt e) (ttl c)); [reflexivity | lia].
  - apply Cache_Get_cache.
  - intros e He Hle. rewrite Cache_Get_cache. split; [|exact He].
    unfold Cache_Get. rewrite He.
    destruct (Z.ltb_spec (now - insertedAt e) (ttl c)); [lia | reflexivity].
  - intros data src.
    assert (Hset : entries (Cache_Set c now key data src) !! key
                   = Some {| payload := data; sourceID := src;
                             insertedAt := now |}).
    { unfold Cache_Set. simpl. apply lookup_insert_eq. }
    split; [exact Hset|]. split; [reflexivity|]. split; [|split].
    + intros other Hne. unfold Cache_Set. simpl.
      apply lookup_insert_ne. congruence.
    + intros Hpos. unfold Cache_Get. rewrite Hset. simpl.
      destruct (Z.ltb_spec (now - now) (ttl c)); [reflexivity | lia].
    + intros later Hle. rewrite Cache_Get_cache. split; [|exact Hset].
      unfold Cache_Get. rewrite Hset. simpl.
      destruct (Z.ltb_spec (later - now) (ttl c)); [lia | reflexivity].
Qed.

Section CachedFetcherProperties.
Context {F : Type} `{Fetcher F}.

Lemma fetchWorld_eta (w : fetchWorld) :
  {| cache := cache w; clock := clock w; fetches := fetches w |} = w.
Proof. destruct w; reflexivity. Qed.

(** What [Fetch] does, by cases: a hit, a failed fetch, a fetch that
    succeeded. *)
Lemma CachedFetcher_Fetch_cases (c : CachedFetcher F) refresh w :
  (refresh = false /\ cacheHit c w = true
   /\ exists data src,
        fst (Cache_Get (cache w) (clock w) (source c)) = (data, src, true)
        /\ CachedFetcher_Fetch c refresh w = ((data, src, None), w))
  \/ ((refresh = true \/ cacheHit c w = false)
      /\ exists err,
           fetchResult (nextFetch c w) = Err err
           /\ CachedFetcher_Fetch c refresh w
              = (([], "", Some err),
                 {| cache := cache w;
                    clock := clock w + elapsed (nextFetch c w);
                    fetches := S (fetches w) |}))
  \/ ((refresh = true \/ cacheHit c w = false)
      /\ exists data src,
           fetchResult (nextFetch c w) = Ok (data, src)
           /\ CachedFetcher_Fetch c refresh w
              = ((data, src, None),
                 {| cache := Cache_Set (cache w)
                               (clock w + elapsed (nextFetch c w))
                               (source c) data src;
                    clock := clock w + elapsed (nextFetch c w);
                    fetches := S (fetches w) |})).
Proof.
  unfold CachedFetcher_Fetch, cacheHit, nextFetch.
  pose proof (Cache_Get_cache (cache w) (clock w) (source c)) as Hsame.
  destruct refresh; simpl.
  - right.
    destruct (fetchResult (Fetch (fetcher c) (fetches w)))
      as [[data src] | err]; [right | left]; split; eauto.
  - destruct (Cache_Get (cache w) (clock w) (source c))
      as [[[data src] found] cache'].
    simpl in Hsame. subst cache'. simpl. destruct found.
    + left. repeat split. exists data, src. rewrite fetchWorld_eta. auto.
    + right.
      destruct (fetchResult (Fetch (fetcher c) (fetches w)))
        as [[data' src'] | err]; [right | left]; split; eauto.
Qed.

(** C6.  With [refresh = false] and a hit in the cache for the
    configured source key, [Fetch] returns the cached payload and source
    identifier and the world is left as it was: the wrapped fetcher is
    not invoked.  With [refresh = true] the wrapped fetcher is invoked,
    whatever the cache holds, and what [Fetch] returns is what the
    fetcher answered. *)
Theorem CachedFetcher_Fetch_cache_first (c : CachedFetcher F) (w : fetchWorld) :
  (forall data src,
     fst (Cache_Get (cache w) (clock w) (source c)) = (data, src, true) ->
     CachedFetcher_Fetch c false w = ((data, src, None), w)
     /\ fetches (snd (CachedFetcher_Fetch c false w)) = fetches w)
  /\ fetches (snd (CachedFetcher_Fetch c true w)) = S (fetches w)
  /\ fst (CachedFetcher_Fetch c true w)
     = match fetchResult (nextFetch c w) with
       | Ok (data, src) => (data, src, None)
       | Err err => ([], "", Some err)
       end.
Proof.
  split; [|split].
  - intros data src Hhit.
    destruct (CachedFetcher_Fetch_cases c false w)
      as [(_ & _ & d & s & Hg & E) | [([? | Hmiss] & _) | ([? | Hmiss] & _)]];
      try discriminate.
    + rewrite Hg in Hhit. injection Hhit as <- <-. rewrite E. auto.
    + unfold cacheHit in Hmiss. rewrite Hhit in Hmiss. discriminate.
    + unfold cacheHit in Hmiss. rewrite Hhit in Hmiss. discriminate.
  - destruct (CachedFetcher_Fetch_cases c true w)
      as [(? & _) | [(_ & err & _ & E) | (_ & d & s & _ & E)]];
      try discriminate; rewrite E; reflexivity.
  - destruct (CachedFetcher_Fetch_cases c true w)
      as [(? & _) | [(_ & err & Hr & E) | (_ & d & s & Hr & E)]];
      try discriminate; rewrite E, Hr; reflexivity.
Qed.

(** C7.  When the wrapped fetcher is invoked and returns an error,
    [Fetch] returns that error unchanged and the cache is what it was
    before the call; when it succeeds, the cache is set under the
    configured key with the fresh result, which is returned.  The cache
    changes in no other case. *)
Theorem CachedFetcher_Fetch_failure_keeps_cache (c : CachedFetcher F)
    (refresh : bool) (w : fetchWorld) :
  (forall err,
     refresh = true \/ cacheHit c w = false ->
     fetchResult (nextFetch c w) = Err err ->
     fst (CachedFetcher_Fetch c refresh w) = ([], "", Some err)
     /\ cache (snd (CachedFetcher_Fetch c refresh w)) = cache w)
  /\ (forall data src,
        refresh = true \/ cacheHit c w = false ->
        fetchResult (nextFetch c w) = Ok (data, src) ->
        fst (CachedFetcher_Fetch c refresh w) = (data, src, None)
        /\ cache (snd (CachedFetcher_Fetch c refresh w))
           = Cache_Set (cache w) (clock w + elapsed (nextFetch c w))
               (source c) data src)
  /\ (cache (snd (CachedFetcher_Fetch c refresh w)) = cache w
      \/ exists data src,
           (refresh = true \/ cacheHit c w = false)
           /\ fetchResult (nextFetch c w) = Ok (data, src)).
Proof.
  destruct (CachedFetcher_Fetch_cases c refresh w)
    as [(Hr & Hhit & d & s & _ & E)
       | [(Hinv & err & Hf & E) | (Hinv & d & s & Hf & E)]]; rewrite E; simpl.
  - split; [|split].
    + intros err [? | Hmiss]; congruence.
    + intros data src [? | Hmiss]; congruence.
    + left. reflexivity.
  - split; [|split].
    + intros err' _ Hf'. rewrite Hf in Hf'. injection Hf' as <-. auto.
    + intros data src _ Hf'. congruence.
    + left. reflexivity.
  - split; [|split].
    + intros err _ Hf'. congruence.
    + intros data src _ Hf'. rewrite Hf in Hf'. injection Hf' as <- <-. auto.
    + right. eauto.
Qed.

End CachedFetcherProperties.

(** Two consecutive calls with [refresh = false] invoke the fetcher once;
    a call with [refresh = true] invokes it again; a failing fetcher
    leaves the empty cache empty. *)
Example CachedFetcher_Fetch_examples :
  let cf := NewCachedFetcher servesHello "https://example.com/x" in
  let '(r1, w1) := CachedFetcher_Fetch cf false freshWorld in
  let '(r2, w2) := CachedFetcher_Fetch cf false w1 in
  let '(r3, w3) := CachedFetcher_Fetch cf true w2 in
  r1 = (fiveBytes, "https://example.com/x", None)
  /\ r2 = r1 /\ r3 = r1
  /\ fetches w1 = 1%nat /\ fetches w2 = 1%nat /\ fetches w3 = 2%nat.
Proof. vm_compute. repeat split. Qed.

Example CachedFetcher_Fetch_failure_example :
  let cf := NewCachedFetcher failsToFetch "https://example.com/x" in
  let '(r, w) := CachedFetcher_Fetch cf false freshWorld in
  r = ([], "", Some (ErrWrap "executing request" timedOut))
  /\ cache w = cache freshWorld.
Proof. vm_compute. repeat split. Qed.

(* ================================================================= *)
(** ** The tool wrappers default an empty version *)

Section ModeProperties.
Context `{NetURL}.
Variable Out : Type.
Variable GetLexicon : InputGetLexicon -> CachedFetcher HTTPFetcher -> Out.
Variable GetSchemaDocs : InputGetSchemaDocs -> CachedFetcher HTTPFetcher -> Out.

Lemma Build_error_not_version (b : URLBuilder) version v :
  ValidateVersion version = None ->
  Build b version <> Err (ErrInvalidVersion v).
Proof.
  intros Hv. unfold Build. rewrite Hv.
  destruct (url_Parse (rawURL b version)) as [parsed | err]; [|discriminate].
  destruct (negb (String.eqb (Scheme parsed) (Scheme (base b)))
            || negb (String.eqb (Host parsed) (Host (base b)))); discriminate.
Qed.

(** C9.  A [getLexicon] call whose input version is empty builds its
    fetch URL with version "v0.19.1", and a [getSchemaDocs] call whose
    input version is empty builds it with "latest".  Both defaults pass
    the validator, so an empty version never comes back as an
    invalid-version error. *)
Theorem empty_version_is_defaulted (a : AdvisoryMode) :
  (forall input, lexiconVersion input = "" ->
     getLexicon Out GetLexicon a input
     = match Build (lexiconURLBuilder a) "v0.19.1" with
       | Err err => Err (ErrWrap "building fetch URL" err)
       | Ok u =>
           Ok (GetLexicon input
                 {| fetcher := {| fetchURL := u; MaxResponseBytes := 0 |};
                    source := u |})
       end
     /\ forall v, getLexicon Out GetLexicon a input
                  <> Err (ErrWrap "building fetch URL" (ErrInvalidVersion v)))
  /\ (forall input, schemaVersion input = "" ->
        getSchemaDocs Out GetSchemaDocs a input
        = match Build (schemaDocsURLBuilder a) "latest" with
          | Err err => Err (ErrWrap "building fetch URL" err)
          | Ok u =>
              Ok (GetSchemaDocs input
                    {| fetcher := {| fetchURL := u; MaxResponseBytes := 0 |};
                       source := u |})
          end
        /\ forall v, getSchemaDocs Out GetSchemaDocs a input
                     <> Err (ErrWrap "building fetch URL" (ErrInvalidVersion v)))
  /\ ValidateVersion "" = Some (ErrInvalidVersion "")
  /\ ValidateVersion defaultLexiconVersion = None
  /\ ValidateVersion defaultSchemaVersion = None.
Proof.
  split; [|split; [|repeat split]].
  - intros input Hv. unfold getLexicon, NewHTTPFetcher. rewrite Hv. simpl.
    unfold defaultLexiconVersion.
    pose proof (Build_error_not_version (lexiconURLBuilder a) "v0.19.1")
      as Hnot.
    destruct (Build (lexiconURLBuilder a) "v0.19.1") as [u | err].
    + split; [reflexivity | discriminate].
    + split; [reflexivity|]. intros v [= ->]. apply (Hnot v); reflexivity.
  - intros input Hv. unfold getSchemaDocs, NewHTTPFetcher. rewrite Hv. simpl.
    unfold defaultSchemaVersion.
    pose proof (Build_error_not_version (schemaDocsURLBuilder a) "latest")
      as Hnot.
    destruct (Build (schemaDocsURLBuilder a) "latest") as [u | err].
    + split; [reflexivity | discriminate].
    + split; [reflexivity|]. intros v [= ->]. apply (Hnot v); reflexivity.
Qed.

End ModeProperties.

(** Over the reference instance and the builders of [NewAdvisoryMode]:
    the two tools called without a version fetch these URLs. *)
Example empty_version_example :
  match @NewAdvisoryMode refURL with
  | Err _ => False
  | Ok a =>
      @getLexicon refURL string (fun _ cf => source cf) a
        {| lexiconVersion := ""; lexiconRefresh := false |}
      = Ok "https://raw.githubusercontent.com/gemaraproj/gemara/v0.19.1/docs/lexicon.yaml"
      /\ @getSchemaDocs refURL string (fun _ cf => source cf) a
           {| schemaVersion := ""; schemaRefresh := false |}
         = Ok "https://registry.cue.works/docs/github.com/gemaraproj/gemara@latest"
  end.
Proof. vm_compute. split; reflexivity. Qed.

(* ================================================================= *)
(** * Further properties of the code *)

(** ** The URL builder *)

Section BuilderFurther.
Context `{NetURL}.

Lemma Build_Ok_inv (b : URLBuilder) version u :
  Build b version = Ok u ->
  ValidateVersion version = None
  /\ exists parsed,
       url_Parse (rawURL b version) = Ok parsed
       /\ Scheme parsed = Scheme (base b)
       /\ Host parsed = Host (base b)
       /\ u = url_String parsed.
Proof.
  unfold Build. destruct (ValidateVersion version) as [err|]; [discriminate|].
  destruct (url_Parse (rawURL b version)) as [parsed | err]; [|discriminate].
  destruct (negb (String.eqb (Scheme parsed) (Scheme (base b)))
            || negb (String.eqb (Host parsed) (Host (base b)))) eqn:E;
    [discriminate|].
  intros [= <-]. apply orb_false_iff in E as [E1 E2].
  apply negb_false_iff, String.eqb_eq in E1, E2. eauto 8.
Qed.

Lemma NewURLBuilder_Ok_inv (baseURL suffix0 : string) (b : URLBuilder) :
  NewURLBuilder baseURL suffix0 = Ok b ->
  url_Parse baseURL = Ok (base b)
  /\ Scheme (base b) = "https" /\ Host (base b) <> "" /\ suffix b = suffix0.
Proof.
  unfold NewURLBuilder.
  destruct (url_Parse baseURL) as [parsedBase | err]; [|discriminate].
  destruct (String.eqb (Scheme parsedBase) "https") eqn:Es; [|discriminate].
  destruct (String.eqb (Host parsedBase) "") eqn:Eh; [discriminate|].
  simpl. intros [= <-]. simpl.
  apply String.eqb_eq in Es. apply String.eqb_neq in Eh. auto.
Qed.

(** X1.  A builder that [NewURLBuilder] returns holds the parsed base,
    whose scheme is exactly "https" and whose host is not empty, and the
    suffix it was given; hence every URL such a builder builds parses
    with scheme "https" and the base's non-empty host. *)
Theorem NewURLBuilder_pins_https (baseURL suffix0 : string) (b : URLBuilder) :
  NewURLBuilder baseURL suffix0 = Ok b ->
  url_Parse baseURL = Ok (base b)
  /\ Scheme (base b) = "https"
  /\ Host (base b) <> ""
  /\ suffix b = suffix0
  /\ (forall version u,
        Build b version = Ok u ->
        exists parsed,
          url_Parse (rawURL b version) = Ok parsed
          /\ u = url_String parsed
          /\ Scheme parsed = "https"
          /\ Host parsed = Host (base b)
          /\ Host parsed <> "").
Proof.
  intros Hn. apply NewURLBuilder_Ok_inv in Hn as (Hp & Hs & Hh & Hx).
  repeat split; auto.
  intros version u Hb.
  apply Build_Ok_inv in Hb as (_ & parsed & Hp' & Hs' & Hh' & ->).
  exists parsed. repeat split; congruence.
Qed.

(** X2.  [Build] succeeds exactly when the version has the form the
    validator describes and the concatenation parses to a URL with the
    base's scheme and host; what it returns is that URL's text. *)
Theorem Build_Ok_iff (b : URLBuilder) (version u : string) :
  Build b version = Ok u
  <-> acceptedBySpec version
      /\ exists parsed,
           url_Parse (rawURL b version) = Ok parsed
           /\ Scheme parsed = Scheme (base b)
           /\ Host parsed = Host (base b)
           /\ u = url_String parsed.
Proof.
  split.
  - intros Hb. apply Build_Ok_inv in Hb as (Hv & Hrest).
    split; [apply ValidateVersion_None_iff; exact Hv | exact Hrest].
  - intros (Ha & parsed & Hp & Hs & Hh & ->).
    apply ValidateVersion_None_iff in Ha. unfold Build. rewrite Ha, Hp, Hs, Hh.
    rewrite !String.eqb_refl. reflexivity.
Qed.

End BuilderFurther.

Lemma NewURLBuilder_pins_https_witness :
  exists b,
    @NewURLBuilder refURL lexiconBaseURL lexiconPathSuffix = Ok b
    /\ refScheme (base b) = "https"
    /\ refHost (base b) = "raw.githubusercontent.com"
    /\ suffix b = lexiconPathSuffix.
Proof.
  eexists. split; [reflexivity|].
  destruct (@NewURLBuilder_pins_https refURL lexiconBaseURL lexiconPathSuffix
              _ eq_refl) as (_ & Hs & _ & Hx & _).
  split; [exact Hs|]. split; [reflexivity | exact Hx].
Defined.

(* ================================================================= *)
(** ** The retrying transport: accounting *)

Lemma waitAfter_cases t o :
  waitAfter t o = wait t \/ 0 < waitAfter t o.
Proof.
  unfold waitAfter. destruct (Z.gtb_spec (retryAfter (respOf o)) 0); auto.
Qed.

Lemma responsesAmong_S env n :
  responsesAmong env (S n) = (responsesAmong env n + opened (transport env n))%nat.
Proof. simpl. destruct (transport env n); simpl; lia. Qed.

(** What one turn does to the world, and what it returns. *)
Lemma attemptOnce_effect t env req attempt w :
  match attemptOnce t env req attempt w with
  | Return r w' =>
      sent w' = S (sent w) /\ slept w' = slept w
      /\ ((r = replyOf (transport env (sent w)) /\ closed w' = closed w)
          \/ (r = (None, Some (ctxErr env))
              /\ attempt < maxRetry t
              /\ isRetryable (transport env (sent w)) = (true, None)
              /\ ctxDone env (sent w) = true
              /\ closed w' = (closed w + opened (transport env (sent w)))%nat))
  | Continue req' w' =>
      sent w' = S (sent w) /\ attempt < maxRetry t
      /\ isRetryable (transport env (sent w)) = (true, None)
      /\ ctxDone env (sent w) = false
      /\ slept w' = slept w ++ [waitAfter t (transport env (sent w))]
      /\ closed w' = (closed w + opened (transport env (sent w)))%nat
  end.
Proof.
  unfold attemptOnce, waitAfter.
  destruct (Z.leb_spec (maxRetry t) attempt) as [Hle | Hlt].
  - rewrite attempt_at_bound by auto. simpl. auto.
  - rewrite attempt_below_bound by auto.
    destruct (isRetryable_cases (transport env (sent w)))
      as [Hr | [Hr | (err & Ho & Ht & Hr)]]; rewrite Hr.
    + destruct (rebuildBody req (sent w)) as [req'|]; [|simpl; auto].
      destruct (ctxDone env (sent w)) eqn:Hc;
        destruct (transport env (sent w)) as [resp | err]; simpl;
        repeat split; auto; try lia; right; repeat split; auto; lia.
    + simpl. auto.
    + rewrite Ho. simpl. auto.
Qed.

(** The same over the whole loop, entered with as many requests sent as
    the attempt number says. *)
Lemma roundTripLoop_accounting t env :
  forall fuel req attempt w r w',
    roundTripLoop fuel t env req attempt w = Some (r, w') ->
    Z.of_nat (sent w) = attempt ->
    (sent w < sent w')%nat
    /\ Z.of_nat (sent w') <= Z.max attempt (maxRetry t) + 1
    /\ slept w'
       = slept w ++ map (fun k => waitAfter t (transport env k))
                      (seq (sent w) (pred (sent w') - sent w))
    /\ (r = replyOf (transport env (pred (sent w')))
        \/ (r = (None, Some (ctxErr env))
            /\ Z.of_nat (sent w') <= maxRetry t
            /\ isRetryable (transport env (pred (sent w'))) = (true, None)
            /\ ctxDone env (pred (sent w')) = true))
    /\ (closed w' + responsesAmong env (sent w)
        + handedOver r
        = closed w + responsesAmong env (sent w'))%nat
    /\ (forall k, (sent w <= k < pred (sent w'))%nat ->
          isRetryable (transport env k) = (true, None)
          /\ ctxDone env k = false).
Proof.
  induction fuel as [|fuel IH]; intros req attempt w r w' E Ha; [discriminate|].
  simpl in E. pose proof (attemptOnce_effect t env req attempt w) as Heff.
  destruct (attemptOnce t env req attempt w) as [r0 w0 | req1 w1].
  - injection E as <- <-. destruct Heff as (Hs & Hsl & Hwhy).
    rewrite Hs, Hsl. change (pred (S (sent w))) with (sent w).
    rewrite Nat.sub_diag, responsesAmong_S. simpl map. rewrite app_nil_r.
    split; [lia|]. split; [lia|]. split; [reflexivity|].
    destruct Hwhy as [[-> Hc] | (-> & Hlt & Hr & Hd & Hc)].
    + split; [auto|]. split; [|intros k Hk; lia].
      rewrite Hc. unfold handedOver, opened.
      destruct (transport env (sent w)); simpl; lia.
    + split; [right; repeat split; auto; lia|].
      split; [|intros k Hk; lia]. unfold handedOver. simpl. lia.
  - destruct Heff as (Hs & Hlt & Hr & Hd & Hsl & Hc).
    destruct (IH req1 (attempt + 1) w1 r w' E)
      as (Hlt' & Hle' & Hsl' & Hwhy & Hc' & Hpre); [lia|].
    split; [lia|]. split; [lia|]. split; [|split; [|split]].
    + rewrite Hsl', Hsl, Hs, <- app_assoc. f_equal.
      replace (pred (sent w') - sent w)%nat
        with (S (pred (sent w') - S (sent w))) by lia.
      reflexivity.
    + exact Hwhy.
    + rewrite Hs, responsesAmong_S in Hc'. lia.
    + intros k Hk. destruct (Nat.eq_dec k (sent w)) as [-> | Hne]; [auto|].
      apply Hpre. lia.
Qed.

Lemma RoundTrip_accounting t env req :
  exists r w,
    RoundTrip t env req = Some (r, w)
    /\ (0 < sent w)%nat
    /\ Z.of_nat (sent w) <= Z.max 0 (maxRetry t) + 1
    /\ slept w = map (fun k => waitAfter t (transport env k))
                   (seq 0 (pred (sent w)))
    /\ (r = replyOf (transport env (pred (sent w)))
        \/ (r = (None, Some (ctxErr env))
            /\ Z.of_nat (sent w) <= maxRetry t
            /\ isRetryable (transport env (pred (sent w))) = (true, None)
            /\ ctxDone env (pred (sent w)) = true))
    /\ (closed w + handedOver r = responsesAmong env (sent w))%nat
    /\ (forall k, (k < pred (sent w))%nat ->
          isRetryable (transport env k) = (true, None)
          /\ ctxDone env k = false).
Proof.
  destruct (RoundTrip_total t env req) as (r & w & E).
  exists r, w. split; [exact E|]. unfold RoundTrip in E.
  apply roundTripLoop_accounting in E
    as (Hlt & Hle & Hsl & Hwhy & Hc & Hpre); [|reflexivity].
  simpl in Hlt, Hle, Hsl, Hc. rewrite Nat.sub_0_r in Hsl.
  repeat split; auto; try lia; apply Hpre; simpl; lia.
Qed.

(** X3.  [RoundTrip] always returns, having sent at least one request
    and at most [maxRetry + 1] (one when [maxRetry] is negative); it
    sleeps once between two consecutive requests and never after the
    last one. *)
Theorem RoundTrip_attempts_bounded t env req :
  exists r w,
    RoundTrip t env req = Some (r, w)
    /\ (1 <= sent w)%nat
    /\ Z.of_nat (sent w) <= Z.max 0 (maxRetry t) + 1
    /\ sent w = S (length (slept w)).
Proof.
  destruct (RoundTrip_accounting t env req)
    as (r & w & E & Hpos & Hle & Hsl & _).
  exists r, w. repeat split; auto.
  rewrite Hsl, length_map, length_seq. lia.
Qed.

(** X4.  The wait after the [k]-th request is the [Retry-After] of the
    [k]-th response when that is positive and the fixed wait otherwise;
    so with a positive fixed wait [RoundTrip] never sleeps a zero or
    negative duration, whatever the header says. *)
Theorem RoundTrip_waits t env req :
  exists r w,
    RoundTrip t env req = Some (r, w)
    /\ slept w = map (fun k => waitAfter t (transport env k))
                   (seq 0 (pred (sent w)))
    /\ (0 < wait t -> Forall (fun d => 0 < d) (slept w)).
Proof.
  destruct (RoundTrip_accounting t env req) as (r & w & E & _ & _ & Hsl & _).
  exists r, w. split; [exact E|]. split; [exact Hsl|].
  intros Hw. rewrite Hsl. apply List.Forall_forall. intros d Hin.
  apply in_map_iff in Hin as (k & <- & _).
  destruct (waitAfter_cases t (transport env k)) as [-> | Hpos]; auto.
Qed.

(** X5.  What [RoundTrip] returns is the result of the last request it
    sent, unchanged, or else a nil response with the context's error,
    and that only when the wait after a retryable outcome was cancelled
    with attempts left.  Every request before the last had a retryable
    outcome and a wait that ran to its end. *)
Theorem RoundTrip_reply_is_real t env req :
  exists r w,
    RoundTrip t env req = Some (r, w)
    /\ (r = replyOf (transport env (pred (sent w)))
        \/ (r = (None, Some (ctxErr env))
            /\ Z.of_nat (sent w) <= maxRetry t
            /\ isRetryable (transport env (pred (sent w))) = (true, None)
            /\ ctxDone env (pred (sent w)) = true))
    /\ (forall k, (k < pred (sent w))%nat ->
          isRetryable (transport env k) = (true, None)
          /\ ctxDone env k = false).
Proof.
  destruct (RoundTrip_accounting t env req)
    as (r & w & E & _ & _ & _ & Hwhy & _ & Hpre).
  exists r, w. auto.
Qed.

(** X6.  [RoundTrip] leaves no response body open behind it: of the
    responses received, each one is closed except the one handed to the
    caller, and a response handed to the caller is the one the last
    request received. *)
Theorem RoundTrip_closes_bodies t env req :
  exists r w,
    RoundTrip t env req = Some (r, w)
    /\ (closed w + handedOver r = responsesAmong env (sent w))%nat
    /\ (forall resp, fst r = Some resp ->
          transport env (pred (sent w)) = GotResponse resp).
Proof.
  destruct (RoundTrip_accounting t env req)
    as (r & w & E & _ & _ & _ & Hwhy & Hc & _).
  exists r, w. split; [exact E|]. split; [exact Hc|].
  intros resp Hr. destruct Hwhy as [-> | (-> & _)]; [|discriminate].
  destruct (transport env (pred (sent w))); simpl in Hr; congruence.
Qed.

(** X7.  With [maxRetry] zero or negative nothing is retried: one request
    goes out and its result comes back as it is, retryable or not, with
    no body closed and no wait. *)
Theorem RoundTrip_without_retries t env req :
  maxRetry t <= 0 ->
  RoundTrip t env req = Some (replyOf (transport env 0), sendOne world0).
Proof.
  intros Hle. unfold RoundTrip. simpl.
  rewrite attemptOnce_at_bound by lia. reflexivity.
Qed.

Lemma RoundTrip_without_retries_witness :
  RoundTrip {| maxRetry := 0; wait := Second |}
    (always (GotResponse (statusOnly 503))) getRequest
  = Some ((Some (statusOnly 503), None),
          {| sent := 1; closed := 0; slept := [] |}).
Proof.
  apply (RoundTrip_without_retries {| maxRetry := 0; wait := Second |}
           (always (GotResponse (statusOnly 503))) getRequest).
  simpl. lia.
Defined.

(** Four attempts against a server that first times out, then answers
    429 with [Retry-After: 2], then 500, then 200. *)
Example RoundTrip_accounting_example :
  RoundTrip newRetryTransport
    {| transport := fun k =>
         match k with
         | O => GotError timedOut
         | 1%nat => GotResponse
                      {| StatusCode := 429;
                         Header := {[ "Retry-After" := ["2"] ]};
                         Body := emptyBody; RequestURL := "" |}
         | 2%nat => GotResponse (statusOnly 500)
         | _ => GotResponse (statusOnly 200)
         end;
       ctxDone := fun _ => false; ctxErr := ErrContextCanceled |}
    getRequest
  = Some ((Some (statusOnly 200), None),
          {| sent := 4; closed := 2;
             slept := [1 * Second; 2 * Second; 1 * Second] |}).
Proof. vm_compute. reflexivity. Qed.

(* ================================================================= *)
(** ** The [Retry-After] header *)

Lemma digit_byte_value c :
  isDigitByte c = true ->
  0 <= Z.of_N (N_of_ascii c) - 48 <= 9
  /\ Ascii.eqb c "+" = false /\ Ascii.eqb c "-" = false.
Proof.
  destruct c as [[] [] [] [] [] [] [] []]; vm_compute; intros;
    repeat split; congruence.
Qed.

Lemma parseDigits_ge ds : forall acc n,
  parseDigits acc ds = Some n -> 0 <= acc -> acc <= n.
Proof.
  induction ds as [|c ds IH]; simpl; intros acc n E Hacc.
  - injection E as <-. lia.
  - destruct (isDigitByte c) eqn:Ed; [|discriminate].
    apply digit_byte_value in Ed as (Hv & _).
    apply IH in E; lia.
Qed.

Lemma wrap64_small z : - 2 ^ 63 <= z < 2 ^ 63 -> wrap64 z = z.
Proof.
  intros Hz. unfold wrap64. rewrite Z.mod_small; lia.
Qed.

(** On a string of digits the loop of [ParseUint] gives the number the
    digits denote, or the range error when that number is beyond
    [uint64]. *)
Lemma ParseUint_loop_digits ds : forall n m,
  0 <= n <= maxUint64 -> parseDigits n ds = Some m ->
  ParseUint_loop n ds
  = if m <=? maxUint64 then (m, None) else (maxUint64, Some ErrRange).
Proof.
  induction ds as [|c ds IH]; intros n m Hn E.
  - cbn [parseDigits] in E. injection E as <-. cbn [ParseUint_loop].
    destruct (Z.leb_spec n maxUint64); [reflexivity | lia].
  - cbn [parseDigits] in E. cbn [ParseUint_loop].
    destruct (isDigitByte c) eqn:Ed; [|discriminate].
    destruct (digit_byte_value c Ed) as (Hd & _).
    remember (Z.of_N (N_of_ascii c) - 48) as d eqn:Edig.
    assert (Hm : n * 10 + d <= m) by (apply (parseDigits_ge ds _ _ E); lia).
    cbv zeta.
    change (maxUint64 / 10 + 1) with 1844674407370955162.
    change (2 ^ 64) with 18446744073709551616.
    unfold maxUint64 in *.
    change (2 ^ 64 - 1) with 18446744073709551615 in *.
    destruct (Z.geb_spec n 1844674407370955162) as [Hcut | Hcut].
    { destruct (Z.leb_spec m 18446744073709551615); [lia | reflexivity]. }
    destruct (Z.lt_ge_cases (n * 10 + d) 18446744073709551616) as [Hfit | Hover].
    + rewrite (Z.mod_small (n * 10 + d)) by lia.
      destruct (Z.ltb_spec (n * 10 + d) (n * 10)); [lia|].
      destruct (Z.gtb_spec (n * 10 + d) 18446744073709551615); [lia|].
      cbn [orb]. apply IH; [lia | exact E].
    + assert (Hw : (n * 10 + d) mod 18446744073709551616
                   = n * 10 + d - 18446744073709551616).
      { symmetry. apply (Z.mod_unique _ _ 1); lia. }
      rewrite Hw.
      destruct (Z.ltb_spec (n * 10 + d - 18446744073709551616) (n * 10));
        [|lia].
      cbn [orb].
      destruct (Z.leb_spec m 18446744073709551615); [lia | reflexivity].
Qed.

(** A header value made of decimal digits parses to its value, up to the
    largest [int64]. *)
Lemma ParseInt10_digits v n :
  v <> "" -> parseDigits 0 (list_ascii_of_string v) = Some n ->
  ParseInt10 v = Z.min n (2 ^ 63 - 1).
Proof.
  intros Hne E. unfold ParseInt10.
  destruct v as [|c v]; [congruence|].
  change (list_ascii_of_string (String c v))
    with (c :: list_ascii_of_string v) in *.
  assert (Ed : isDigitByte c = true).
  { destruct (isDigitByte c) eqn:Ed; auto.
    cbn [parseDigits] in E. rewrite Ed in E. discriminate. }
  destruct (digit_byte_value c Ed) as (_ & Hp & Hm).
  pose proof (parseDigits_ge _ _ _ E (Z.le_refl 0)) as Hn0.
  cbv zeta. rewrite Hp, Hm. cbn [orb negb andb]. unfold ParseUint10.
  rewrite (ParseUint_loop_digits _ 0 n) by (unfold maxUint64; lia || exact E).
  unfold maxUint64. change (2 ^ 64 - 1) with 18446744073709551615.
  change (2 ^ 63) with 9223372036854775808.
  destruct (Z.leb_spec n 18446744073709551615) as [Hfit | Hover].
  - destruct (Z.geb_spec n 9223372036854775808); [lia|].
    rewrite wrap64_small by lia. lia.
  - destruct (Z.geb_spec 18446744073709551615 9223372036854775808); lia.
Qed.

(** X8.  [retryAfter] is zero for a nil response, for a response without
    the header, for the value "0" and for a value that starts with a
    byte other than a sign or a digit; for a value made of decimal
    digits that denotes [n] seconds, [n] between 1 and 9223372036, it is
    exactly [n] seconds. *)
Theorem retryAfter_header :
  retryAfter None = 0
  /\ (forall resp, Header resp !! headerRetryAfter = None ->
        retryAfter (Some resp) = 0)
  /\ (forall resp v n,
        Header_Get (Header resp) headerRetryAfter = v -> v <> "" ->
        parseDigits 0 (list_ascii_of_string v) = Some n ->
        (n = 0 -> retryAfter (Some resp) = 0)
        /\ (0 < n <= maxRetryAfterSeconds ->
            retryAfter (Some resp) = n * Second))
  /\ (forall resp c rest,
        Header_Get (Header resp) headerRetryAfter = String c rest ->
        isDigitByte c = false -> c <> "+"%char -> c <> "-"%char ->
        retryAfter (Some resp) = 0).
Proof.
  split; [reflexivity|]. split; [|split].
  - intros resp Hm. unfold retryAfter, Header_Get. rewrite Hm. reflexivity.
  - intros resp v n Hg Hne E. unfold retryAfter. rewrite Hg.
    apply String.eqb_neq in Hne as Hneb. rewrite Hneb. simpl.
    rewrite (ParseInt10_digits v n Hne E). split.
    + intros ->. reflexivity.
    + unfold maxRetryAfterSeconds, Second. intros Hn.
      rewrite Z.min_l by lia.
      destruct (Z.gtb_spec n 0); [|lia]. apply wrap64_small. lia.
  - intros resp c rest Hg Hd Hp Hm. unfold retryAfter. rewrite Hg.
    replace (ParseInt10 (String c rest)) with 0; [reflexivity|].
    unfold ParseInt10.
    change (list_ascii_of_string (String c rest))
      with (c :: list_ascii_of_string rest).
    apply Ascii.eqb_neq in Hp, Hm. cbv beta iota zeta. rewrite Hp, Hm.
    cbn [orb ParseUint10 ParseUint_loop]. rewrite Hd. reflexivity.
Qed.

(** A value beyond [uint64] is a range error at the digit that
    overflows, whatever follows it: the parse gives the largest [int64],
    and its product with [time.Second] wraps to minus one second.  A
    byte that is not a digit before that point is a syntax error, and a
    sign is picked off first. *)
Example retryAfter_range_error_example :
  let withHeader v :=
    Some {| StatusCode := 429; Header := {[ "Retry-After" := [v] ]};
            Body := emptyBody; RequestURL := "" |} in
  retryAfter (withHeader "99999999999999999999x") = - Second
  /\ retryAfter (withHeader "9223372036854775808") = - Second
  /\ retryAfter (withHeader "9223372036854775807") = - Second
  /\ retryAfter (withHeader "12x") = 0
  /\ retryAfter (withHeader "+7") = 7 * Second
  /\ retryAfter (withHeader "-7") = 0
  /\ retryAfter (withHeader "+") = 0.
Proof. vm_compute. repeat split. Qed.

(* ================================================================= *)
(** ** The bounded fetcher: success and failure *)

(** X9.  [Fetch] succeeds exactly when the request can be created, the
    client returns a response with status 200, and the read under the cap
    meets no error of the body's reader: the body either goes on beyond
    the cap, or ends at the cap with its end left to the next [Read], or
    ends in end of file.  It then returns the body cut at the cap, with
    the fetch URL as source identifier. *)
Theorem HTTPFetcher_Fetch_Ok_iff (f : HTTPFetcher) (env : httpEnv)
    (body : list Byte.byte) (src : string) :
  HTTPFetcher_Fetch f env = Ok (body, src)
  <-> newRequestErr env (fetchURL f) = None
      /\ exists resp,
           clientDo env (fetchURL f) = GotResponse resp
           /\ StatusCode resp = 200
           /\ (Z.of_nat (length (bodyData (Body resp))) < effectiveCap f
               \/ (Z.of_nat (length (bodyData (Body resp))) = effectiveCap f
                   /\ endWithData (Body resp) = true) ->
               bodyErr (Body resp) = None)
           /\ body = firstn (Z.to_nat (effectiveCap f)) (bodyData (Body resp))
           /\ src = fetchURL f.
Proof.
  split.
  - intros Hf.
    destruct (HTTPFetcher_Fetch_Ok_200 f env body src Hf)
      as (Hn & resp & Hd & Hs).
    split; [exact Hn|]. exists resp. split; [exact Hd|]. split; [exact Hs|].
    rewrite (HTTPFetcher_Fetch_200 f env resp Hn Hd Hs) in Hf.
    destruct (seesEnd f (Body resp)) eqn:Eend.
    + destruct (bodyErr (Body resp)) as [err|]; [discriminate|].
      injection Hf as <- <-. auto.
    + injection Hf as <- <-. split; [|auto].
      intros Hend. apply seesEnd_iff in Hend. congruence.
  - intros (Hn & resp & Hd & Hs & Hend & -> & ->).
    rewrite (HTTPFetcher_Fetch_200 f env resp Hn Hd Hs).
    destruct (seesEnd f (Body resp)) eqn:Eend; [|reflexivity].
    rewrite Hend by (apply seesEnd_iff; exact Eend). reflexivity.
Qed.

(** X10.  A body longer than the cap is cut at the cap without an error,
    whatever its reader does further on: what lies beyond the cap is
    never read.  A body exactly as long as the cap is returned whole when
    its reader ends in end of file or leaves its error to the next
    [Read], which is never made; when the reader's error comes with the
    last bytes, [Fetch] fails with it. *)
Theorem HTTPFetcher_Fetch_truncates (f : HTTPFetcher) (env : httpEnv)
    (resp : Response) :
  newRequestErr env (fetchURL f) = None ->
  clientDo env (fetchURL f) = GotResponse resp ->
  StatusCode resp = 200 ->
  effectiveCap f <= Z.of_nat (length (bodyData (Body resp))) ->
  Z.of_nat (length (firstn (Z.to_nat (effectiveCap f))
                      (bodyData (Body resp))))
  = effectiveCap f
  /\ (effectiveCap f < Z.of_nat (length (bodyData (Body resp)))
      \/ endWithData (Body resp) = false
      \/ bodyErr (Body resp) = None ->
      HTTPFetcher_Fetch f env
      = Ok (firstn (Z.to_nat (effectiveCap f)) (bodyData (Body resp)),
            fetchURL f))
  /\ (forall err,
        effectiveCap f = Z.of_nat (length (bodyData (Body resp))) ->
        endWithData (Body resp) = true ->
        bodyErr (Body resp) = Some err ->
        HTTPFetcher_Fetch f env = Err (ErrWrap "reading response body" err)).
Proof.
  intros Hn Hd Hs Hlen.
  pose proof (effectiveCap_pos f) as Hpos.
  rewrite (HTTPFetcher_Fetch_200 f env resp Hn Hd Hs).
  split; [rewrite length_firstn; lia|]. split.
  - intros Hcase. destruct (seesEnd f (Body resp)) eqn:Eend; [|reflexivity].
    apply seesEnd_iff in Eend as [Hlt | [Heq Hwith]]; [lia|].
    destruct Hcase as [Hlong | [Hlater | Heof]];
      [lia | congruence | rewrite Heof; reflexivity].
  - intros err Heq Hwith Herr.
    replace (seesEnd f (Body resp)) with true
      by (symmetry; apply seesEnd_iff; right; split; [lia | exact Hwith]).
    rewrite Herr. reflexivity.
Qed.

Lemma HTTPFetcher_Fetch_truncates_witness :
  HTTPFetcher_Fetch cappedFetcher (servesFiveBytesThenFails true)
  = Ok ([Byte.x68; Byte.x65; Byte.x6c], fetchURL cappedFetcher)
  /\ HTTPFetcher_Fetch fiveByteFetcher (servesFiveBytesThenFails false)
     = Ok (fiveBytes, fetchURL fiveByteFetcher)
  /\ HTTPFetcher_Fetch fiveByteFetcher (servesFiveBytesThenFails true)
     = Err (ErrWrap "reading response body" (ErrPlain "unexpected EOF")).
Proof.
  split; [|split].
  - apply (HTTPFetcher_Fetch_truncates cappedFetcher
             (servesFiveBytesThenFails true) _ eq_refl eq_refl eq_refl).
    + vm_compute. discriminate.
    + left. vm_compute. reflexivity.
  - apply (HTTPFetcher_Fetch_truncates fiveByteFetcher
             (servesFiveBytesThenFails false) _ eq_refl eq_refl eq_refl).
    + vm_compute. discriminate.
    + right. left. reflexivity.
  - apply (HTTPFetcher_Fetch_truncates fiveByteFetcher
             (servesFiveBytesThenFails true) _ eq_refl eq_refl eq_refl).
    + vm_compute. discriminate.
    + reflexivity.
    + reflexivity.
    + reflexivity.
Defined.

(** X11.  [Fetch] fails in exactly four ways, each with its own error:
    the request cannot be created; the client returns an error, which is
    wrapped and keeps its timeout classification; the status is not 200
    (another 2xx included), reported with method, URL and code; the body's
    reader fails before the cap is reached, or at the cap with the error
    coming together with the last bytes. *)
Theorem HTTPFetcher_Fetch_Err_iff (f : HTTPFetcher) (env : httpEnv) (e : error) :
  HTTPFetcher_Fetch f env = Err e
  <-> (exists err, newRequestErr env (fetchURL f) = Some err
                   /\ e = ErrWrap "creating request" err)
      \/ (newRequestErr env (fetchURL f) = None
          /\ ((exists err, clientDo env (fetchURL f) = GotError err
                           /\ e = ErrWrap "executing request" err
                           /\ asNetTimeout e = asNetTimeout err)
              \/ exists resp,
                   clientDo env (fetchURL f) = GotResponse resp
                   /\ ((StatusCode resp <> 200
                        /\ e = ErrStatus "GET" (RequestURL resp)
                                 (StatusCode resp))
                       \/ (StatusCode resp = 200
                           /\ (Z.of_nat (length (bodyData (Body resp)))
                               < effectiveCap f
                               \/ (Z.of_nat (length (bodyData (Body resp)))
                                   = effectiveCap f
                                   /\ endWithData (Body resp) = true))
                           /\ exists err, bodyErr (Body resp) = Some err
                                /\ e = ErrWrap "reading response body" err)))).
Proof.
  destruct (newRequestErr env (fetchURL f)) as [e0|] eqn:Hn.
  { unfold HTTPFetcher_Fetch. rewrite Hn. split.
    - intros [= <-]. left. eauto.
    - intros [(err & [= <-] & ->) | ([=] & _)]. reflexivity. }
  destruct (clientDo env (fetchURL f)) as [resp | err] eqn:Hd.
  2: { unfold HTTPFetcher_Fetch. rewrite Hn, Hd. split.
       - intros [= <-]. right. split; [reflexivity|]. left. eauto.
       - intros [(err0 & [=] & _) | (_ & [(err0 & [= <-] & -> & _)
                                          | (resp & [=] & _)])].
         reflexivity. }
  destruct (Z.eq_dec (StatusCode resp) 200) as [Hs | Hs].
  2: { unfold HTTPFetcher_Fetch. rewrite Hn, Hd. unfold StatusOK.
       destruct (Z.eqb_spec (StatusCode resp) 200) as [Hs' | _];
         [contradiction|]. cbn [negb]. split.
       - intros [= <-]. right. split; [reflexivity|]. right. exists resp.
         split; [reflexivity|]. left. auto.
       - intros [(err0 & [=] & _) | (_ & [(err0 & [=] & _)
                                          | (r & [= <-] & [(_ & ->) | (Hs' & _)])])];
           [reflexivity | contradiction]. }
  rewrite (HTTPFetcher_Fetch_200 f env resp Hn Hd Hs).
  destruct (seesEnd f (Body resp)) eqn:Eend.
  - apply seesEnd_iff in Eend.
    destruct (bodyErr (Body resp)) as [e0|] eqn:Ee.
    + split.
      * intros [= <-]. right. split; [reflexivity|]. right. exists resp.
        split; [reflexivity|]. right. eauto 6.
      * intros [(err0 & [=] & _) | (_ & [(err0 & [=] & _)
                | (r & [= <-] & [(Hs' & _) | (_ & _ & err0 & He & ->)])])];
          [contradiction|]. rewrite Ee in He. congruence.
    + split; [discriminate|].
      intros [(err0 & [=] & _) | (_ & [(err0 & [=] & _)
              | (r & [= <-] & [(Hs' & _) | (_ & _ & err0 & He & _)])])];
        [contradiction|]. rewrite Ee in He. discriminate.
  - split; [discriminate|].
    intros [(err0 & [=] & _) | (_ & [(err0 & [=] & _)
            | (r & [= <-] & [(Hs' & _) | (_ & Hend & _)])])];
      [contradiction|].
    apply seesEnd_iff in Hend. congruence.
Qed.

Lemma HTTPFetcher_Fetch_Ok_inv (f : HTTPFetcher) (env : httpEnv) body src :
  HTTPFetcher_Fetch f env = Ok (body, src) ->
  src = fetchURL f
  /\ Z.of_nat (length body) <= effectiveCap f
  /\ exists resp, clientDo env (fetchURL f) = GotResponse resp
                  /\ StatusCode resp = 200.
Proof.
  unfold HTTPFetcher_Fetch.
  destruct (newRequestErr env (fetchURL f)); [discriminate|].
  destruct (clientDo env (fetchURL f)) as [resp | err]; [|discriminate].
  unfold StatusOK.
  destruct (Z.eqb_spec (StatusCode resp) 200) as [Hs | Hs]; [|discriminate].
  cbn [negb].
  pose proof (limitReader_length (Body resp) (MaxResponseBytes f)) as Hlen.
  remember (limitReader (Body resp) (MaxResponseBytes f)) as limited.
  destruct (io_ReadAll limited) as [read [err|]] eqn:E; [discriminate|].
  intros [= <- <-]. unfold io_ReadAll in E. injection E as <- _.
  split; [reflexivity|]. split; [exact Hlen | eauto].
Qed.

Section FetcherConstruction.
Context `{NetURL}.

(** X12.  A fetcher that [NewHTTPFetcher] returns fetches the URL that
    [Build] built and reads under the default cap: whatever it fetches
    comes from that URL, is labelled with it, and is at most 4 MiB
    long. *)
Theorem NewHTTPFetcher_fetches_built_URL (b : URLBuilder) (version : string)
    (f : HTTPFetcher) :
  NewHTTPFetcher b version = Ok f ->
  Build b version = Ok (HTTPFetcher_URL f)
  /\ MaxResponseBytes f = 0
  /\ forall env body src,
       HTTPFetcher_Fetch f env = Ok (body, src) ->
       src = HTTPFetcher_URL f
       /\ Z.of_nat (length body) <= 4 * 1024 * 1024
       /\ exists resp, clientDo env (HTTPFetcher_URL f) = GotResponse resp
                       /\ StatusCode resp = 200.
Proof.
  unfold NewHTTPFetcher, HTTPFetcher_URL.
  destruct (Build b version) as [u | err]; [|discriminate].
  intros [= <-]. split; [reflexivity|]. split; [reflexivity|].
  intros env body src Hf.
  apply HTTPFetcher_Fetch_Ok_inv in Hf as (Hsrc & Hlen & Hresp).
  split; [exact Hsrc|]. split; [exact Hlen | exact Hresp].
Qed.

End FetcherConstruction.

Lemma NewHTTPFetcher_fetches_built_URL_witness :
  exists f,
    @NewHTTPFetcher refURL exampleBuilder "v1.2.3" = Ok f
    /\ HTTPFetcher_URL f = "https://example.com/a/v1.2.3/b.yaml"
    /\ MaxResponseBytes f = 0.
Proof.
  eexists. split; [reflexivity|]. split; [reflexivity|].
  exact (proj1 (proj2 (@NewHTTPFetcher_fetches_built_URL refURL exampleBuilder
                         "v1.2.3" _ eq_refl))).
Defined.

(* ================================================================= *)
(** ** The cached fetcher: composition and frame *)

Lemma Cache_Get_after_Set c now key data src :
  0 < ttl c ->
  Cache_Get (Cache_Set c now key data src) now key
  = ((data, src, true), Cache_Set c now key data src).
Proof.
  intros Hpos. unfold Cache_Get.
  replace (entries (Cache_Set c now key data src) !! key)
    with (Some {| payload := data; sourceID := src; insertedAt := now |})
    by (unfold Cache_Set; simpl; symmetry; apply lookup_insert_eq).
  simpl. destruct (Z.ltb_spec (now - now) (ttl c)); [reflexivity | lia].
Qed.

Section CachedFetcherFurther.
Context {F : Type} `{Fetcher F}.

(** X13.  After a [Fetch] that returned data, fresh or cached, a [Fetch]
    with [refresh = false] right away returns the same data and source
    from the cache and changes nothing: the wrapped fetcher is not
    invoked again.  (The TTL is positive.) *)
Theorem CachedFetcher_Fetch_then_hit (c : CachedFetcher F) (refresh : bool)
    (w w1 : fetchWorld) (data : list Byte.byte) (src : string) :
  0 < ttl (cache w) ->
  CachedFetcher_Fetch c refresh w = ((data, src, None), w1) ->
  CachedFetcher_Fetch c false w1 = ((data, src, None), w1).
Proof.
  intros Hpos E.
  destruct (CachedFetcher_Fetch_cases c refresh w)
    as [(-> & _ & d & s & _ & E') | [(_ & err & _ & E') | (_ & d & s & _ & E')]];
    rewrite E' in E.
  - injection E as <- <- <-. exact E'.
  - discriminate.
  - injection E as <- <- <-.
    unfold CachedFetcher_Fetch. cbn [negb cache clock fetches].
    rewrite Cache_Get_after_Set by exact Hpos. reflexivity.
Qed.

(** X14.  A [Fetch] touches the cache under its own source key only: the
    TTL and the entries of every other key are as before.  It invokes
    the wrapped fetcher at most once, and if it does not invoke it, the
    world is unchanged. *)
Theorem CachedFetcher_Fetch_frame (c : CachedFetcher F) (refresh : bool)
    (w : fetchWorld) :
  let w' := snd (CachedFetcher_Fetch c refresh w) in
  ttl (cache w') = ttl (cache w)
  /\ (forall key, key <> source c ->
        entries (cache w') !! key = entries (cache w) !! key)
  /\ (fetches w' = fetches w \/ fetches w' = S (fetches w))
  /\ (fetches w' = fetches w -> w' = w)
  /\ (fetches w' = S (fetches w) ->
      clock w' = clock w + elapsed (nextFetch c w)).
Proof.
  destruct (CachedFetcher_Fetch_cases c refresh w)
    as [(_ & _ & d & s & _ & E) | [(_ & err & _ & E) | (_ & d & s & _ & E)]];
    rewrite E; cbn [snd cache clock fetches Cache_Set ttl entries].
  - repeat split; auto. intros Hf. lia.
  - repeat split; auto. intros Hf. lia.
  - repeat split; auto.
    + intros key Hne. apply lookup_insert_ne. congruence.
    + intros Hf. lia.
Qed.

(** X15.  With no entry for the source key, or with one as old as the TTL
    or older, [refresh = false] behaves exactly as [refresh = true]. *)
Theorem CachedFetcher_Fetch_miss_is_refresh (c : CachedFetcher F)
    (w : fetchWorld) :
  (entries (cache w) !! source c = None
   \/ exists e, entries (cache w) !! source c = Some e
                /\ ttl (cache w) <= clock w - insertedAt e) ->
  CachedFetcher_Fetch c false w = CachedFetcher_Fetch c true w.
Proof.
  intros Hmiss.
  assert (Hg : Cache_Get (cache w) (clock w) (source c)
               = (([], "", false), cache w)).
  { unfold Cache_Get. destruct Hmiss as [-> | (e & -> & Hold)]; [reflexivity|].
    destruct (Z.ltb_spec (clock w - insertedAt e) (ttl (cache w)));
      [lia | reflexivity]. }
  unfold CachedFetcher_Fetch. cbn [negb]. rewrite Hg.
  rewrite fetchWorld_eta. reflexivity.
Qed.

End CachedFetcherFurther.

Lemma CachedFetcher_Fetch_then_hit_witness :
  let cf := NewCachedFetcher servesHello "https://example.com/x" in
  let w1 := snd (CachedFetcher_Fetch cf false freshWorld) in
  CachedFetcher_Fetch cf false w1
  = ((fiveBytes, "https://example.com/x", None), w1).
Proof.
  apply (CachedFetcher_Fetch_then_hit
           (NewCachedFetcher servesHello "https://example.com/x")
           false freshWorld).
  - vm_compute. reflexivity.
  - reflexivity.
Defined.

Lemma CachedFetcher_Fetch_miss_is_refresh_witness :
  CachedFetcher_Fetch (NewCachedFetcher servesHello "https://example.com/x")
    false freshWorld
  = CachedFetcher_Fetch (NewCachedFetcher servesHello "https://example.com/x")
      true freshWorld.
Proof.
  apply (CachedFetcher_Fetch_miss_is_refresh
           (NewCachedFetcher servesHello "https://example.com/x") freshWorld).
  left. reflexivity.
Defined.

(* ================================================================= *)
(** ** The tool wrappers: what they fetch and what they refuse *)

Section ModeFurther.
Context `{NetURL}.
Variable Out : Type.
Variable GetLexicon : InputGetLexicon -> CachedFetcher HTTPFetcher -> Out.
Variable GetSchemaDocs : InputGetSchemaDocs -> CachedFetcher HTTPFetcher -> Out.





(** X17.  A version that is not empty is used as it is given: the tool's
    answer is decided by [Build] on that version, and a version the
    validator does not accept comes back as the validator's error,
    wrapped once, without the handler being called. *)
Theorem tools_use_given_version (a : AdvisoryMode) :
  (forall input,
     lexiconVersion input <> "" ->
     getLexicon Out GetLexicon a input
     = match Build (lexiconURLBuilder a) (lexiconVersion input) with
       | Err err => Err (ErrWrap "building fetch URL" err)
       | Ok u =>
           Ok (GetLexicon input
                 {| fetcher := {| fetchURL := u; MaxResponseBytes := 0 |};
                    source := u |})
       end
     /\ (~ acceptedBySpec (lexiconVersion input) ->
         getLexicon Out GetLexicon a input
         = Err (ErrWrap "building fetch URL"
                  (ErrInvalidVersion (lexiconVersion input)))))
  /\ (forall input,
        schemaVersion input <> "" ->
        getSchemaDocs Out GetSchemaDocs a input
        = match Build (schemaDocsURLBuilder a) (schemaVersion input) with
          | Err err => Err (ErrWrap "building fetch URL" err)
          | Ok u =>
              Ok (GetSchemaDocs input
                    {| fetcher := {| fetchURL := u; MaxResponseBytes := 0 |};
                       source := u |})
          end
        /\ (~ acceptedBySpec (schemaVersion input) ->
            getSchemaDocs Out GetSchemaDocs a input
            = Err (ErrWrap "building fetch URL"
                     (ErrInvalidVersion (schemaVersion input))))).
Proof.
  assert (Hrej : forall (b : URLBuilder) version,
            ~ acceptedBySpec version ->
            Build b version = Err (ErrInvalidVersion version)).
  { intros b version Hn. apply Build_rejects_invalid_version.
    destruct (ValidateVersion_cases version) as [E | E]; [|exact E].
    apply ValidateVersion_None_iff in E. contradiction. }
  split.
  - intros input Hne. apply String.eqb_neq in Hne.
    assert (E : getLexicon Out GetLexicon a input
                = match Build (lexiconURLBuilder a) (lexiconVersion input) with
                  | Err err => Err (ErrWrap "building fetch URL" err)
                  | Ok u =>
                      Ok (GetLexicon input
                            {| fetcher := {| fetchURL := u;
                                             MaxResponseBytes := 0 |};
                               source := u |})
                  end).
    { unfold getLexicon, NewHTTPFetcher. rewrite Hne.
      destruct (Build _ _); reflexivity. }
    split; [exact E|]. intros Hn. rewrite E, (Hrej _ _ Hn). reflexivity.
  - intros input Hne. apply String.eqb_neq in Hne.
    assert (E : getSchemaDocs Out GetSchemaDocs a input
                = match Build (schemaDocsURLBuilder a) (schemaVersion input) with
                  | Err err => Err (ErrWrap "building fetch URL" err)
                  | Ok u =>
                      Ok (GetSchemaDocs input
                            {| fetcher := {| fetchURL := u;
                                             MaxResponseBytes := 0 |};
                               source := u |})
                  end).
    { unfold getSchemaDocs, NewHTTPFetcher. rewrite Hne.
      destruct (Build _ _); reflexivity. }
    split; [exact E|]. intros Hn. rewrite E, (Hrej _ _ Hn). reflexivity.
Qed.

End ModeFurther.


(** A call with a version that smuggles a path is refused. *)
Example tools_refuse_crafted_version :
  match @NewAdvisoryMode refURL with
  | Err _ => False
  | Ok a =>
      @getLexicon refURL string (fun _ cf => source cf) a
        {| lexiconVersion := "v1.0.0/../../evil"; lexiconRefresh := false |}
      = Err (ErrWrap "building fetch URL"
               (ErrInvalidVersion "v1.0.0/../../evil"))
  end.
Proof. vm_compute. reflexivity. Qed.

(* ================================================================= *)
(** ** Prompt arguments *)

(** A component name: a letter or digit, then letters, digits, spaces,
    dots, underscores and hyphens. *)
Definition componentShaped (s : list ascii) : Prop :=
  exists c rest,
    s = c :: rest
    /\ existsb (Ascii.eqb c) alnumChars = true
    /\ allOf componentChars rest = true.

Lemma class_alnum_chars c :
  inClass class_alnum c = existsb (Ascii.eqb c) alnumChars.
Proof. destruct c as [[] [] [] [] [] [] [] []]; reflexivity. Qed.

Lemma class_component_chars c :
  inClass class_component c = existsb (Ascii.eqb c) componentChars.
Proof. destruct c as [[] [] [] [] [] [] [] []]; reflexivity. Qed.

Lemma class_id_prefix_chars c :
  inClass class_id_prefix c = existsb (Ascii.eqb c) idPrefixChars.
Proof. destruct c as [[] [] [] [] [] [] [] []]; reflexivity. Qed.

Lemma validComponentPattern_lang s :
  lang validComponentPattern s <-> componentShaped s.
Proof.
  unfold validComponentPattern, componentShaped. rewrite lang_concat_iff. split.
  - intros (s1 & s2 & -> & H1 & H2). inversion H1; subst.
    apply lang_star_class in H2.
    match goal with Hin : inClass _ _ = true |- _ =>
      rewrite class_alnum_chars in Hin end.
    rewrite (forallb_pointwise _ _ s2 class_component_chars) in H2.
    exists c, s2. auto.
  - intros (c & rest & -> & Hc & Hrest). exists [c], rest.
    split; [reflexivity|]. split.
    + constructor. rewrite class_alnum_chars. exact Hc.
    + apply lang_star_class.
      rewrite (forallb_pointwise _ _ rest class_component_chars). exact Hrest.
Qed.

Lemma validIDPrefixPattern_lang s :
  lang validIDPrefixPattern s <-> run idPrefixChars s.
Proof.
  unfold validIDPrefixPattern, run, allOf. rewrite lang_plus_class.
  rewrite (forallb_pointwise _ _ s class_id_prefix_chars). reflexivity.
Qed.

Lemma MatchString_lang r s :
  MatchString r s = true <-> lang r (list_ascii_of_string s).
Proof. apply matchBytes_lang. Qed.

Lemma string_length_bytes s :
  String.length s = length (list_ascii_of_string s).
Proof. induction s as [|c s IH]; simpl; congruence. Qed.

(** X18.  [validateComponent] accepts exactly the values of at most 200
    bytes that start with a letter or digit and go on with letters,
    digits, spaces, dots, underscores and hyphens.  Of its errors the
    first that applies is returned: the empty value is "required", a
    longer value "exceeds maximum length" whatever it holds, and only
    then is the pattern consulted. *)
Theorem validateComponent_spec (value : string) :
  (validateComponent value = None
   <-> (String.length value <= 200)%nat
       /\ componentShaped (list_ascii_of_string value))
  /\ (value = "" -> validateComponent value = Some ErrComponentRequired)
  /\ (value <> "" -> (200 < String.length value)%nat ->
      validateComponent value = Some (ErrComponentTooLong 200))
  /\ (value <> "" -> (String.length value <= 200)%nat ->
      ~ componentShaped (list_ascii_of_string value) ->
      validateComponent value = Some (ErrComponentPattern value)).
Proof.
  unfold validateComponent, maxPromptArgLen.
  destruct (String.eqb_spec value "") as [-> | Hne].
  { split; [|split; [|split]].
    - split; [discriminate|]. intros (_ & c & rest & [=] & _).
    - reflexivity.
    - congruence.
    - congruence. }
  destruct (Nat.ltb_spec 200 (String.length value)) as [Hlong | Hshort].
  { split; [|split; [|split]].
    - split; [discriminate | intros [? _]; lia].
    - congruence.
    - reflexivity.
    - intros; lia. }
  destruct (MatchString validComponentPattern value) eqn:Em; simpl.
  - apply MatchString_lang, validComponentPattern_lang in Em.
    split; [|split; [|split]].
    + split; auto.
    + congruence.
    + intros; lia.
    + intros _ _ Hn. contradiction.
  - assert (Hn : ~ componentShaped (list_ascii_of_string value)).
    { intros Hs. apply validComponentPattern_lang, MatchString_lang in Hs.
      congruence. }
    split; [|split; [|split]].
    + split; [discriminate | intros [_ Hs]; contradiction].
    + congruence.
    + intros; lia.
    + reflexivity.
Qed.

(** X19.  [validateIDPrefix] accepts exactly the non-empty values of at
    most 200 bytes made of capital letters, digits, dots and hyphens;
    its errors come in the same order as for the component. *)
Theorem validateIDPrefix_spec (value : string) :
  (validateIDPrefix value = None
   <-> (String.length value <= 200)%nat
       /\ run idPrefixChars (list_ascii_of_string value))
  /\ (value = "" -> validateIDPrefix value = Some ErrIDPrefixRequired)
  /\ (value <> "" -> (200 < String.length value)%nat ->
      validateIDPrefix value = Some (ErrIDPrefixTooLong 200))
  /\ (value <> "" -> (String.length value <= 200)%nat ->
      allOf idPrefixChars (list_ascii_of_string value) = false ->
      validateIDPrefix value = Some (ErrIDPrefixPattern value)).
Proof.
  unfold validateIDPrefix, maxPromptArgLen.
  destruct (String.eqb_spec value "") as [-> | Hne].
  { split; [|split; [|split]].
    - split; [discriminate|]. intros (_ & Hn & _). exfalso. apply Hn. reflexivity.
    - reflexivity.
    - congruence.
    - congruence. }
  destruct (Nat.ltb_spec 200 (String.length value)) as [Hlong | Hshort].
  { split; [|split; [|split]].
    - split; [discriminate | intros [? _]; lia].
    - congruence.
    - reflexivity.
    - intros; lia. }
  destruct (MatchString validIDPrefixPattern value) eqn:Em; simpl.
  - apply MatchString_lang, validIDPrefixPattern_lang in Em.
    split; [|split; [|split]].
    + split; auto.
    + congruence.
    + intros; lia.
    + intros _ _ Hn. destruct Em as [_ Ha]. congruence.
  - assert (Hn : ~ run idPrefixChars (list_ascii_of_string value)).
    { intros Hs. apply validIDPrefixPattern_lang, MatchString_lang in Hs.
      congruence. }
    split; [|split; [|split]].
    + split; [discriminate | intros [_ Hs]; contradiction].
    + congruence.
    + intros; lia.
    + reflexivity.
Qed.

(** The tables of the prompt tests, as far as they concern the
    arguments. *)
Example validate_arguments_test_table :
  map validateComponent ["container runtime"; "kube-apiserver_v2.1"] = [None; None]
  /\ map validateIDPrefix ["ACME.PLAT.CR"; "SEC.SLAM.MQ"] = [None; None]
  /\ (let bad := ["click](http://evil.com)"; "<!-- override -->"; "${EVIL_VAR}";
                  "name`; drop table"; "<script>alert(1)</script>";
                  "bad" +:+ String "000"%char "value"] in
      map validateComponent bad = map (fun v => Some (ErrComponentPattern v)) bad)
  /\ (let bad := ["acme.plat.cr"; "ACME PLAT CR"; "ACME.${INJECT}";
                  "ACME_PLAT_CR"; "ACME" +:+ String "010"%char "PLAT"] in
      map validateIDPrefix bad = map (fun v => Some (ErrIDPrefixPattern v)) bad)
  /\ validateComponent "" = Some ErrComponentRequired
  /\ validateIDPrefix "" = Some ErrIDPrefixRequired.
Proof. vm_compute. repeat split. Qed.

(* ================================================================= *)
(** ** The replacer of the prompt handlers *)

(** No byte of [s] is a dollar sign. *)
Definition dollarFree (s : string) : bool :=
  forallb (fun c => negb (Ascii.eqb c "$")) (list_ascii_of_string s).

Lemma bytes_append a b :
  list_ascii_of_string (a +:+ b)
  = list_ascii_of_string a ++ list_ascii_of_string b.
Proof.
  induction a as [|c a IH]; [reflexivity|].
  change (String c a +:+ b) with (String c (a +:+ b)).
  cbn [list_ascii_of_string]. rewrite IH. reflexivity.
Qed.

Lemma string_of_bytes_app x y :
  string_of_list_ascii (x ++ y)
  = string_of_list_ascii x +:+ string_of_list_ascii y.
Proof.
  induction x as [|c x IH]; [reflexivity|].
  change ((c :: x) ++ y) with (c :: (x ++ y)).
  cbn [string_of_list_ascii]. rewrite IH. reflexivity.
Qed.

Lemma replaceFrom_skip pairs a b :
  replaceFrom pairs (length a) (a ++ b) = replaceFrom pairs 0 b.
Proof. induction a as [|c a IH]; simpl; auto. Qed.

Lemma lookupPair_no_dollar component idPrefix c s :
  Ascii.eqb c "$" = false ->
  lookupPair (promptReplacer component idPrefix) (c :: s) = None.
Proof.
  intros Hc. unfold promptReplacer, placeholderComponent, placeholderIDPrefix.
  cbn [lookupPair list_ascii_of_string hasPrefix].
  rewrite (Ascii.eqb_sym "$" c), Hc. reflexivity.
Qed.

Lemma replaceFrom_copies component idPrefix a b :
  forallb (fun c => negb (Ascii.eqb c "$")) a = true ->
  replaceFrom (promptReplacer component idPrefix) 0 (a ++ b)
  = a ++ replaceFrom (promptReplacer component idPrefix) 0 b.
Proof.
  induction a as [|c a IH]; intros Ha; [reflexivity|].
  cbn [forallb] in Ha. apply andb_true_iff in Ha as [Hc Ha].
  apply negb_true_iff in Hc.
  change ((c :: a) ++ b) with (c :: (a ++ b)). cbn [replaceFrom].
  rewrite (lookupPair_no_dollar component idPrefix c (a ++ b) Hc), IH by auto.
  reflexivity.
Qed.

Lemma replaceFrom_component component idPrefix b :
  replaceFrom (promptReplacer component idPrefix) 0 (placeholderComponent ++ b)
  = list_ascii_of_string component
    ++ replaceFrom (promptReplacer component idPrefix) 0 b.
Proof.
  unfold placeholderComponent.
  change (list_ascii_of_string "${COMPONENT}")
    with ("$"%char :: list_ascii_of_string "{COMPONENT}").
  change (("$"%char :: list_ascii_of_string "{COMPONENT}") ++ b)
    with ("$"%char :: (list_ascii_of_string "{COMPONENT}" ++ b)).
  cbn [replaceFrom].
  replace (lookupPair (promptReplacer component idPrefix)
             ("$"%char :: list_ascii_of_string "{COMPONENT}" ++ b))
    with (Some (list_ascii_of_string component, 12%nat)) by reflexivity.
  reflexivity.
Qed.

Lemma replaceFrom_id_prefix component idPrefix b :
  replaceFrom (promptReplacer component idPrefix) 0 (placeholderIDPrefix ++ b)
  = list_ascii_of_string idPrefix
    ++ replaceFrom (promptReplacer component idPrefix) 0 b.
Proof.
  unfold placeholderIDPrefix.
  change (list_ascii_of_string "${ID_PREFIX}")
    with ("$"%char :: list_ascii_of_string "{ID_PREFIX}").
  change (("$"%char :: list_ascii_of_string "{ID_PREFIX}") ++ b)
    with ("$"%char :: (list_ascii_of_string "{ID_PREFIX}" ++ b)).
  cbn [replaceFrom].
  replace (lookupPair (promptReplacer component idPrefix)
             ("$"%char :: list_ascii_of_string "{ID_PREFIX}" ++ b))
    with (Some (list_ascii_of_string idPrefix, 12%nat)) by reflexivity.
  reflexivity.
Qed.

(** X20.  The replacer of the handlers copies text without a dollar sign
    as it is and puts the component in place of [${COMPONENT}] and the
    id prefix in place of [${ID_PREFIX}], going on after the placeholder;
    the text it has written is not read again. *)
Theorem Replacer_substitutes (component idPrefix a b : string) :
  dollarFree a = true ->
  let r := promptReplacer component idPrefix in
  Replacer_Replace r a = a
  /\ Replacer_Replace r (a +:+ "${COMPONENT}" +:+ b)
     = a +:+ component +:+ Replacer_Replace r b
  /\ Replacer_Replace r (a +:+ "${ID_PREFIX}" +:+ b)
     = a +:+ idPrefix +:+ Replacer_Replace r b.
Proof.
  intros Ha r. unfold dollarFree in Ha. unfold Replacer_Replace, r.
  split; [|split].
  - rewrite <- (app_nil_r (list_ascii_of_string a)).
    rewrite replaceFrom_copies by exact Ha. simpl. rewrite app_nil_r.
    apply string_of_list_ascii_of_string.
  - rewrite !bytes_append, replaceFrom_copies by exact Ha.
    change (list_ascii_of_string "${COMPONENT}") with placeholderComponent.
    rewrite replaceFrom_component, !string_of_bytes_app.
    rewrite !string_of_list_ascii_of_string. reflexivity.
  - rewrite !bytes_append, replaceFrom_copies by exact Ha.
    change (list_ascii_of_string "${ID_PREFIX}") with placeholderIDPrefix.
    rewrite replaceFrom_id_prefix, !string_of_bytes_app.
    rewrite !string_of_list_ascii_of_string. reflexivity.
Qed.

Lemma Replacer_substitutes_witness :
  Replacer_Replace (promptReplacer "message queue" "SEC.SLAM.MQ")
    ("id: " +:+ "${ID_PREFIX}" +:+ ".CAP##")
  = "id: SEC.SLAM.MQ.CAP##".
Proof.
  rewrite (proj2 (proj2 (Replacer_substitutes "message queue" "SEC.SLAM.MQ"
                           "id: " ".CAP##" eq_refl))).
  reflexivity.
Defined.

(** A value that spells a placeholder is written as it is: the text
    written is not searched. *)
Example Replacer_does_not_rescan :
  Replacer_Replace (promptReplacer "COMPONENT" "ACME") "${${COMPONENT}}"
  = "${COMPONENT}".
Proof. reflexivity. Qed.

(* ================================================================= *)
(** ** The prompt handlers *)

Lemma validateComponent_None_iff value :
  validateComponent value = None
  <-> (String.length value <= 200)%nat
      /\ componentShaped (list_ascii_of_string value).
Proof.
  unfold validateComponent, maxPromptArgLen.
  destruct (String.eqb_spec value "") as [-> | Hne].
  { split; [discriminate|]. intros (_ & c & rest & [=] & _). }
  destruct (Nat.ltb_spec 200 (String.length value)) as [Hlong | Hshort].
  { split; [discriminate | intros [? _]; lia]. }
  destruct (MatchString validComponentPattern value) eqn:Em; simpl.
  - apply MatchString_lang, validComponentPattern_lang in Em. split; auto.
  - split; [discriminate|]. intros [_ Hs].
    apply validComponentPattern_lang, MatchString_lang in Hs. congruence.
Qed.

Lemma validateIDPrefix_None_iff value :
  validateIDPrefix value = None
  <-> (String.length value <= 200)%nat
      /\ run idPrefixChars (list_ascii_of_string value).
Proof.
  unfold validateIDPrefix, maxPromptArgLen.
  destruct (String.eqb_spec value "") as [-> | Hne].
  { split; [discriminate|]. intros (_ & Hn & _). exfalso. apply Hn. reflexivity. }
  destruct (Nat.ltb_spec 200 (String.length value)) as [Hlong | Hshort].
  { split; [discriminate | intros [? _]; lia]. }
  destruct (MatchString validIDPrefixPattern value) eqn:Em; simpl.
  - apply MatchString_lang, validIDPrefixPattern_lang in Em. split; auto.
  - split; [discriminate|]. intros [_ Hs].
    apply validIDPrefixPattern_lang, MatchString_lang in Hs. congruence.
Qed.

(** The bytes of validated arguments are component characters. *)
Lemma alnum_in_component c :
  existsb (Ascii.eqb c) alnumChars = true ->
  existsb (Ascii.eqb c) componentChars = true.
Proof. destruct c as [[] [] [] [] [] [] [] []]; vm_compute; auto. Qed.

Lemma id_prefix_in_component c :
  existsb (Ascii.eqb c) idPrefixChars = true ->
  existsb (Ascii.eqb c) componentChars = true.
Proof. destruct c as [[] [] [] [] [] [] [] []]; vm_compute; auto. Qed.

Lemma validated_component_bytes value :
  validateComponent value = None ->
  allOf componentChars (list_ascii_of_string value) = true.
Proof.
  intros Hv. apply validateComponent_None_iff in Hv
    as (_ & c & rest & -> & Hc & Hrest).
  rewrite allOf_cons, Hrest, (alnum_in_component c Hc). reflexivity.
Qed.

Lemma validated_id_prefix_bytes value :
  validateIDPrefix value = None ->
  allOf componentChars (list_ascii_of_string value) = true.
Proof.
  intros Hv. apply validateIDPrefix_None_iff in Hv as (_ & _ & Ha).
  exact (allOf_weaken _ _ _ id_prefix_in_component Ha).
Qed.

Lemma lookupPair_In pairs s new n :
  lookupPair pairs s = Some (new, n) -> exists old, In (old, new) pairs.
Proof.
  induction pairs as [|[old0 new0] pairs IH]; simpl; [discriminate|].
  destruct (hasPrefix old0 s).
  - intros [= <- _]. eauto.
  - intros E. destruct (IH E) as (old & Hin). eauto.
Qed.

(** Every byte the replacer writes is a byte of the text it reads or of
    one of its new strings. *)
Lemma replaceFrom_bytes pairs s : forall skip c,
  In c (replaceFrom pairs skip s) ->
  In c s \/ exists old new, In (old, new) pairs /\ In c new.
Proof.
  induction s as [|a s IH]; intros skip c; simpl; [tauto|].
  destruct skip as [|k].
  - destruct (lookupPair pairs (a :: s)) as [[new n]|] eqn:El.
    + intros Hin. apply in_app_or in Hin as [Hin | Hin].
      * right. apply lookupPair_In in El as (old & Hold). eauto.
      * destruct (IH _ _ Hin) as [? | ?]; auto.
    + intros [-> | Hin]; [auto|]. destruct (IH _ _ Hin) as [? | ?]; auto.
  - intros Hin. destruct (IH _ _ Hin) as [? | ?]; auto.
Qed.

Section PromptHandlersFurther.
Variable controlCatalogSystemTemplate : string.
Variable controlCatalogUserTemplate : string.
Variable threatAssessmentSystemTemplate : string.
Variable threatAssessmentUserTemplate : string.

(** The arguments map of a request, when both [Params] and its
    [Arguments] are set. *)
Definition argumentsOf (req : GetPromptRequest) : option (gmap string string) :=
  match Params req with
  | None => None
  | Some params => Arguments params
  end.

(** The handlers with their embedded templates. *)
Definition controlCatalog : GetPromptRequest -> GetPromptResult + promptError :=
  HandleControlCatalog controlCatalogSystemTemplate controlCatalogUserTemplate.

Definition threatAssessment : GetPromptRequest -> GetPromptResult + promptError :=
  HandleThreatAssessment threatAssessmentSystemTemplate
    threatAssessmentUserTemplate.

(** X21.  The two handlers accept the same requests: those that carry an
    arguments map whose "component" is a component name of at most 200
    bytes and whose "id_prefix" is a non-empty run of capital letters,
    digits, dots and hyphens of at most 200 bytes.  They reject every
    other request with the same error, the component's before the id
    prefix's; a request without parameters, without arguments or without
    the "component" key is answered "component argument is required",
    and one with a good component and no "id_prefix" key "id_prefix
    argument is required". *)
Theorem prompt_handlers_accept_iff (req : GetPromptRequest) :
  ((exists res, controlCatalog req = inl res)
   <-> exists args,
        argumentsOf req = Some args
        /\ (String.length (argument args "component") <= 200)%nat
        /\ componentShaped (list_ascii_of_string (argument args "component"))
        /\ (String.length (argument args "id_prefix") <= 200)%nat
        /\ run idPrefixChars (list_ascii_of_string (argument args "id_prefix")))
  /\ ((exists res, controlCatalog req = inl res) <-> (exists res, threatAssessment req = inl res))
  /\ (forall e, controlCatalog req = inr e <-> threatAssessment req = inr e)
  /\ (argumentsOf req = None -> controlCatalog req = inr ErrComponentRequired)
  /\ (forall args,
        argumentsOf req = Some args ->
        (args !! "component" = None -> controlCatalog req = inr ErrComponentRequired)
        /\ (validateComponent (argument args "component") = None ->
            args !! "id_prefix" = None ->
            controlCatalog req = inr ErrIDPrefixRequired)
        /\ (forall e, validateComponent (argument args "component") = Some e ->
              controlCatalog req = inr e)).
Proof.
  unfold controlCatalog, threatAssessment, HandleControlCatalog,
    HandleThreatAssessment, argumentsOf.
  destruct (Params req) as [params|].
  2: { split; [|split; [|split; [|split]]].
       - split; [intros (res & [=]) | intros (args & [=] & _)].
       - split; intros (res & [=]).
       - intros e. reflexivity.
       - reflexivity.
       - intros args [=]. }
  destruct (Arguments params) as [args|].
  2: { split; [|split; [|split; [|split]]].
       - split; [intros (res & [=]) | intros (args & [=] & _)].
       - split; intros (res & [=]).
       - intros e. reflexivity.
       - reflexivity.
       - intros args [=]. }
  cbv zeta.
  pose proof (validateComponent_None_iff (argument args "component")) as Hc.
  pose proof (validateIDPrefix_None_iff (argument args "id_prefix")) as Hp.
  destruct (validateComponent (argument args "component")) as [ec|] eqn:Ec.
  { split; [|split; [|split; [|split]]].
    - split; [intros (res & [=])|].
      intros (a & [= <-] & Hl & Hs & _).
      assert (Some ec = None) by (apply Hc; auto). discriminate.
    - split; intros (res & [=]).
    - intros e. reflexivity.
    - discriminate.
    - intros a [= <-]. rewrite ?Ec. split; [|split].
      + intros Hm. unfold argument in Ec. rewrite Hm in Ec.
        injection Ec as <-. reflexivity.
      + discriminate.
      + intros e [= <-]. reflexivity. }
  destruct (validateIDPrefix (argument args "id_prefix")) as [ep|] eqn:Ep.
  { split; [|split; [|split; [|split]]].
    - split; [intros (res & [=])|].
      intros (a & [= <-] & _ & _ & Hl & Hs).
      assert (Some ep = None) by (apply Hp; auto). discriminate.
    - split; intros (res & [=]).
    - intros e. reflexivity.
    - discriminate.
    - intros a [= <-]. rewrite ?Ec. split; [|split].
      + intros Hm. unfold argument in Ec. rewrite Hm in Ec. discriminate.
      + intros _ Hm. unfold argument in Ep. rewrite Hm in Ep.
        injection Ep as <-. reflexivity.
      + discriminate. }
  split; [|split; [|split; [|split]]].
  - split; [|eauto]. intros _. exists args.
    destruct (proj1 Hc eq_refl) as [? ?]. destruct (proj1 Hp eq_refl) as [? ?].
    auto.
  - split; intros _; eauto.
  - intros e. split; discriminate.
  - discriminate.
  - intros a [= <-]. rewrite ?Ec. split; [|split].
    + intros Hm. unfold argument in Ec. rewrite Hm in Ec. discriminate.
    + intros _ Hm. unfold argument in Ep. rewrite Hm in Ep. discriminate.
    + discriminate.
Qed.

(** X22.  What a handler answers holds two messages, the assistant's and
    then the user's, and nothing is smuggled into them: every byte of a
    message is a byte of its template or a letter, a digit, a space, a
    dot, an underscore or a hyphen. *)
Theorem prompt_messages_bytes (req : GetPromptRequest) (res : GetPromptResult) :
  let fromTemplate (template text : string) : Prop :=
    forall c, In c (list_ascii_of_string text) ->
      In c (list_ascii_of_string template)
      \/ existsb (Ascii.eqb c) componentChars = true in
  (controlCatalog req = inl res ->
   exists systemText userText,
     Messages res = [ {| Role := "assistant"; Text := systemText |};
                      {| Role := "user"; Text := userText |} ]
     /\ fromTemplate controlCatalogSystemTemplate systemText
     /\ fromTemplate controlCatalogUserTemplate userText)
  /\ (threatAssessment req = inl res ->
      exists systemText userText,
        Messages res = [ {| Role := "assistant"; Text := systemText |};
                         {| Role := "user"; Text := userText |} ]
        /\ fromTemplate threatAssessmentSystemTemplate systemText
        /\ fromTemplate threatAssessmentUserTemplate userText).
Proof.
  assert (Hbytes : forall component idPrefix template c,
            validateComponent component = None ->
            validateIDPrefix idPrefix = None ->
            In c (list_ascii_of_string
                    (Replacer_Replace (promptReplacer component idPrefix)
                       template)) ->
            In c (list_ascii_of_string template)
            \/ existsb (Ascii.eqb c) componentChars = true).
  { intros component idPrefix template c Hc Hp Hin.
    unfold Replacer_Replace in Hin.
    rewrite list_ascii_of_string_of_list_ascii in Hin.
    apply replaceFrom_bytes in Hin as [Hin | (old & new & Hpair & Hin)];
      [auto | right].
    apply validated_component_bytes in Hc.
    apply validated_id_prefix_bytes in Hp.
    unfold allOf in Hc, Hp. rewrite forallb_forall in Hc, Hp.
    destruct Hpair as [[= _ <-] | [[= _ <-] | []]]; auto. }
  cbv zeta.
  unfold controlCatalog, threatAssessment, HandleControlCatalog,
    HandleThreatAssessment.
  destruct (Params req) as [params|]; [|split; discriminate].
  destruct (Arguments params) as [args|]; [|split; discriminate].
  cbv zeta.
  destruct (validateComponent (argument args "component")) eqn:Ec;
    [split; discriminate|].
  destruct (validateIDPrefix (argument args "id_prefix")) eqn:Ep;
    [split; discriminate|].
  split; intros [= <-]; cbn [Messages]; do 2 eexists;
    (split; [reflexivity|]); split; intros c; apply Hbytes; auto.
Qed.

End PromptHandlersFurther.

Lemma prompt_messages_bytes_witness :
  exists res,
    controlCatalog "id: ${ID_PREFIX}" "Assess ${COMPONENT}."
      (promptRequest "message queue" "SEC.SLAM.MQ") = inl res
    /\ Description res = "Control catalog wizard for message queue (SEC.SLAM.MQ)"
    /\ Messages res = [ {| Role := "assistant"; Text := "id: SEC.SLAM.MQ" |};
                        {| Role := "user"; Text := "Assess message queue." |} ].
Proof.
  eexists. split; [vm_compute; reflexivity|]. split; [reflexivity|].
  destruct (proj1 (prompt_messages_bytes "id: ${ID_PREFIX}"
                     "Assess ${COMPONENT}." "" ""
                     (promptRequest "message queue" "SEC.SLAM.MQ") _)
              eq_refl)
    as (st & ut & Hm & _).
  vm_compute. reflexivity.
Defined.
